(** * Azure CIDR Analyzer: query builder, subscription resolver, fan-out
      orchestrator and result projector

    A shallow embedding of [src/modules/azureCidrAnalyzer.ts] and of the
    content composition of [src/helpers/exporter.ts].

    Modelling conventions.
    - A JavaScript string is a [string]: a sequence of code units.  Code
      units below 128 get their JavaScript behaviour in [toLowerCase] and
      [trim]; the others are left alone by both.
    - A plain object used as a record of columns ([GraphResult]) is a
      [gmap string Json]; [row[col]] is the lookup of an own property
      (column names are not names of inherited [Object.prototype] members).
    - A [Set] keeps its elements in insertion order; it is modelled by the
      list of its elements, first occurrences only.
    - [await]ed calls to the network thread an abstract [World]; a rejected
      promise or a [throw] is the [Threw] case of a [Completion].
    - A message is handled to completion before the next one is: the
      interleaving of two handlers at their [await]s is not modelled. *)

From Stdlib Require Import Ascii String List Permutation Lia.
From stdpp Require Import gmap strings list sorting pretty.

(** ** JavaScript built-ins used by the module *)

Module Js.

Definition LF : string := String "010"%char "".
Definition DQUOTE : string := String "034"%char "".

(** [String.prototype.toLowerCase], code units 'A'..'Z'. *)
Definition lowerChar (c : ascii) : ascii :=
  let n := nat_of_ascii c in
  if (65 <=? n)%nat && (n <=? 90)%nat then ascii_of_nat (n + 32) else c.

Fixpoint toLowerCase (s : string) : string :=
  match s with
  | EmptyString => EmptyString
  | String c s' => String (lowerChar c) (toLowerCase s')
  end.

(** [Boolean(s)] for a string: the empty string is the only falsy one. *)
Definition truthy (s : string) : bool :=
  match s with EmptyString => false | String _ _ => true end.

(** [s.includes(c)] for a one-character needle. *)
Fixpoint includes (c : ascii) (s : string) : bool :=
  match s with
  | EmptyString => false
  | String d s' => if Ascii.eqb d c then true else includes c s'
  end.

(** [s.replace(/[class]/g, r)]: every code unit of the class [p] is
    replaced by [r c] ([r c] is the expansion of the replacement pattern
    at the match [c]). *)
Fixpoint replaceEach (p : ascii -> bool) (r : ascii -> string) (s : string) : string :=
  match s with
  | EmptyString => EmptyString
  | String c s' =>
      if p c then r c +:+ replaceEach p r s' else String c (replaceEach p r s')
  end.

(** [s.replace(new RegExp(pat, 'g'), rep)] for a literal, non-empty
    [pat]: the scan goes left to right; at a match the replacement is
    emitted and the scan resumes after the match ([skip] counts the code
    units of the current match still to be passed over). *)
Fixpoint replaceAll_from (pat rep : string) (skip : nat) (s : string) : string :=
  match s with
  | EmptyString => EmptyString
  | String c s' =>
      match skip with
      | S k => replaceAll_from pat rep k s'
      | O =>
          if String.prefix pat s
          then rep +:+ replaceAll_from pat rep (String.length pat - 1) s'
          else String c (replaceAll_from pat rep 0 s')
      end
  end.

Definition replaceAll (pat rep s : string) : string := replaceAll_from pat rep 0 s.

(** [arr.join(sep)]. *)
Fixpoint join (sep : string) (l : list string) : string :=
  match l with
  | [] => ""
  | [x] => x
  | x :: l' => x +:+ sep +:+ join sep l'
  end.

(** [Array.from(new Set(l))]: the distinct elements of [l] in order of
    first insertion. *)
Definition Set_add (s : list string) (x : string) : list string :=
  if bool_decide (x ∈ s) then s else s ++ [x].

Definition Set_from (l : list string) : list string := fold_left Set_add l [].

(** [String.prototype.trim]. *)
Fixpoint trimStart (s : string) : string :=
  match s with
  | EmptyString => EmptyString
  | String c s' => if Ascii.is_space c then trimStart s' else s
  end.

Fixpoint trimEnd (s : string) : string :=
  match s with
  | EmptyString => EmptyString
  | String c s' =>
      match trimEnd s' with
      | EmptyString => if Ascii.is_space c then EmptyString else String c EmptyString
      | t => String c t
      end
  end.

Definition trim (s : string) : string := trimEnd (trimStart s).

(** [s.split(/[class]/)]. *)
Fixpoint split_go (p : ascii -> bool) (cur : string) (s : string) : list string :=
  match s with
  | EmptyString => [cur]
  | String c s' =>
      if p c then cur :: split_go p "" s'
      else split_go p (cur +:+ String c "") s'
  end.

Definition split (p : ascii -> bool) (s : string) : list string := split_go p "" s.

(** [Array.prototype.sort()] with the default comparison, on strings:
    ascending order of code units.  The elements sorted in this module
    are pairwise distinct, so the result does not depend on the sorting
    algorithm of the engine. *)
Definition sort (l : list string) : list string := merge_sort String.le l.

(** What [catch (err)] can bind: an [Error] object, a thrown string, or
    [null]/[undefined]. *)
Inductive Thrown : Type :=
| ThrownError (message : string)
| ThrownString (s : string)
| ThrownNullish.

(** [err?.message ?? String(err ?? 'Unknown error')]. *)
Definition messageOf (err : Thrown) : string :=
  match err with
  | ThrownError message => message
  | ThrownString s => s
  | ThrownNullish => "Unknown error"
  end.

Inductive Completion (A : Type) : Type :=
| Returned (a : A)
| Threw (err : Thrown).
Arguments Returned {A} a.
Arguments Threw {A} err.

End Js.

Import Js.

(** ** Query builder *)

Definition isStar (c : ascii) : bool := Ascii.eqb c "*"%char.
Definition isQuote (c : ascii) : bool := Ascii.eqb c "'"%char.

(** The class [[.+?^${}()|[\]\\]]. *)
Definition isRegexMeta (c : ascii) : bool :=
  match c with
  | "."%char | "+"%char | "?"%char | "^"%char | "$"%char
  | "{"%char | "}"%char | "("%char | ")"%char | "|"%char
  | "["%char | "]"%char | "\"%char => true
  | _ => false
  end.

(** A string literal of the query language: every single quote preceded
    by a backslash, the whole between single quotes. *)
Definition quoteLiteral (c : string) : string :=
  "'" +:+ replaceEach isQuote (fun _ => "\'") c +:+ "'".

Definition placeholder : string := "__WILDCARD__".

Definition toRegex (value : string) : string :=
  let withPlaceholder := replaceEach isStar (fun _ => placeholder) value in
  let escaped := replaceEach isRegexMeta (fun c => String "\"%char (String c "")) withPlaceholder in
  let regexBody := replaceAll placeholder ".*" escaped in
  let anchored := "^" +:+ regexBody +:+ "$" in
  quoteLiteral anchored.

Definition lowerSet (cidrs : list string) : list string :=
  Set_from (filter (fun c => truthy c = true) (toLowerCase <$> cidrs)).

Definition exactMatches (cidrs : list string) : list string :=
  filter (fun c => includes "*" c = false) (lowerSet cidrs).

Definition wildcardMatches (cidrs : list string) : list string :=
  filter (fun c => includes "*" c = true) (lowerSet cidrs).

Definition exactClause (exact : list string) : list string :=
  match exact with
  | [] => []
  | _ => ["prefixStr in~ (" +:+ join ", " (quoteLiteral <$> exact) +:+ ")"]
  end.

Definition wildcardClause (wild : list string) : list string :=
  match wild with
  | [] => []
  | _ => [join " or " ((fun value => "prefixStr matches regex " +:+ toRegex value) <$> wild)]
  end.

Definition clauses (cidrs : list string) : list string :=
  exactClause (exactMatches cidrs) ++ wildcardClause (wildcardMatches cidrs).

Definition filterClause (cidrs : list string) : string :=
  match clauses cidrs with
  | [] => ""
  | cs => LF +:+ "| where " +:+ join " or " cs
  end.

Definition queryHead : string :=
"Resources
| where type in~ ('microsoft.network/virtualnetworks', 'microsoft.network/virtualnetworks/subnets', 'microsoft.network/publicipprefixes', 'microsoft.network/ipgroups')
| extend prefixes = case(
    type =~ 'microsoft.network/virtualnetworks', properties.addressSpace.addressPrefixes,
    type =~ 'microsoft.network/virtualnetworks/subnets', coalesce(properties.addressPrefixes, pack_array(properties.addressPrefix)),
    type =~ 'microsoft.network/publicipprefixes', pack_array(properties.ipPrefix),
    type =~ 'microsoft.network/ipgroups', properties.ipAddresses,
    dynamic([])
  )
| mv-expand prefix = prefixes
| where isnotempty(prefix)
| extend prefixStr = tolower(tostring(prefix))".

Definition queryTail : string :=
"
| project name, type, location, resourceGroup, subscriptionId, prefixStr, id".

Definition buildResourceGraphQuery (cidrs : list string) : string :=
  queryHead +:+ filterClause cidrs +:+ queryTail.

(** The query text with no filter clause: the scan of the fixed resource
    types, the expansion of their prefixes and the projection. *)
Definition unfilteredQuery : string :=
"Resources
| where type in~ ('microsoft.network/virtualnetworks', 'microsoft.network/virtualnetworks/subnets', 'microsoft.network/publicipprefixes', 'microsoft.network/ipgroups')
| extend prefixes = case(
    type =~ 'microsoft.network/virtualnetworks', properties.addressSpace.addressPrefixes,
    type =~ 'microsoft.network/virtualnetworks/subnets', coalesce(properties.addressPrefixes, pack_array(properties.addressPrefix)),
    type =~ 'microsoft.network/publicipprefixes', pack_array(properties.ipPrefix),
    type =~ 'microsoft.network/ipgroups', properties.ipAddresses,
    dynamic([])
  )
| mv-expand prefix = prefixes
| where isnotempty(prefix)
| extend prefixStr = tolower(tostring(prefix))
| project name, type, location, resourceGroup, subscriptionId, prefixStr, id".

(** ** Rows and the result projector *)

(** A value of a row, as [response.json()] builds it.  Numbers are the
    integers ([String(n)] and [JSON.stringify(n)] print them in decimal). *)
#[warnings="-register-all"]
Inductive Json : Type :=
| JNull
| JBool (b : bool)
| JNumber (z : Z)
| JString (s : string)
| JArray (items : list Json)
| JObject (fields : list (string * Json)).

Abbreviation GraphResult := (gmap string Json).

Definition hexDigit (n : nat) : ascii :=
  if (n <? 10)%nat then ascii_of_nat (48 + n) else ascii_of_nat (87 + n).

(** The escape of one code unit inside a JSON string literal. *)
Definition jsonEscapeChar (c : ascii) : string :=
  let n := nat_of_ascii c in
  if Ascii.eqb c "034"%char then String "\"%char DQUOTE
  else if Ascii.eqb c "\"%char then "\\"
  else if (n =? 8)%nat then "\b"
  else if (n =? 9)%nat then "\t"
  else if (n =? 10)%nat then "\n"
  else if (n =? 12)%nat then "\f"
  else if (n =? 13)%nat then "\r"
  else if (n <? 32)%nat
       then "\u00" +:+ String (hexDigit (n / 16)) (String (hexDigit (n mod 16)) "")
  else String c "".

Definition jsonQuote (s : string) : string :=
  DQUOTE +:+ replaceEach (fun _ => true) jsonEscapeChar s +:+ DQUOTE.

(** [JSON.stringify(value)] without indentation. *)
Fixpoint JSON_stringify (value : Json) : string :=
  match value with
  | JNull => "null"
  | JBool true => "true"
  | JBool false => "false"
  | JNumber z => pretty z
  | JString s => jsonQuote s
  | JArray items => "[" +:+ join "," (JSON_stringify <$> items) +:+ "]"
  | JObject fields =>
      "{" +:+ join "," ((fun kv => jsonQuote (fst kv) +:+ ":" +:+ JSON_stringify (snd kv)) <$> fields) +:+ "}"
  end.

(** [String(value)] for a primitive value. *)
Definition String_of (value : Json) : string :=
  match value with
  | JString s => s
  | JNumber z => pretty z
  | JBool true => "true"
  | JBool false => "false"
  | JNull => "null"
  | JArray _ | JObject _ => JSON_stringify value
  end.

(** [typeof value === 'object'] for a value that is not [null]. *)
Definition isObject (value : Json) : bool :=
  match value with
  | JArray _ | JObject _ => true
  | _ => false
  end.

(** [Object.keys(row)].  The engine's enumeration order is not kept by the
    map; [collectColumns] sorts the keys it gathers, so no result depends
    on it. *)
Definition Object_keys (row : GraphResult) : list string := (map_to_list row).*1.

Definition collectColumns (rows : list GraphResult) : list string :=
  let cols := fold_left (fun cols row => fold_left Set_add (Object_keys row) cols) rows [] in
  Js.sort cols.

Definition isDQuote (c : ascii) : bool := Ascii.eqb c "034"%char.

(** A field: every double quote of [str] doubled, the whole between
    double quotes. *)
Definition csvQuote (str : string) : string :=
  DQUOTE +:+ replaceEach isDQuote (fun _ => DQUOTE +:+ DQUOTE) str +:+ DQUOTE.

(** The text of a cell before quoting; [None] when the cell is rendered as
    the bare empty field. *)
Definition cellString (value : option Json) : option string :=
  match value with
  | None | Some JNull => None
  | Some v => Some (if isObject v then JSON_stringify v else String_of v)
  end.

Definition csvCell (row : GraphResult) (col : string) : string :=
  match cellString (row !! col) with
  | None => DQUOTE +:+ DQUOTE
  | Some str => csvQuote str
  end.

(** The string a reader of the text is expected to find in a cell. *)
Definition cellText (value : option Json) : string := default "" (cellString value).

Definition csvHeader (columns : list string) : string :=
  join "," (csvQuote <$> columns).

Definition csvBody (rows : list GraphResult) (columns : list string) : string :=
  join LF ((fun row => join "," (csvCell row <$> columns)) <$> rows).



(** ** Messages, effects and the host *)

Record SubscriptionInfo : Type := { id : string; name : option string }.

Inductive IncomingMessage : Type :=
| LookupMessage (cidr : string) (subscriptions : option (list string))
| ExportMessage
| RequestSubscriptionsMessage.

Inductive Status : Type :=
| Running
| Done (count : nat)
| Error (message : string).

(** Messages posted to the webview. *)
Inductive OutMessage : Type :=
| SetLoading (value : bool)
| SubscriptionOptions (subscriptions : list SubscriptionInfo)
| InitSubscriptions (subscriptions : list SubscriptionInfo)
| SubscriptionStatus (subscriptionId : string) (status : Status)
| DisplayResults (cidrs : list string) (results : list GraphResult) (columns : list string)
| ShowError (message : string)
| ShowInfo (message : string).

(** What a handler does to its surroundings, in order. *)
Inductive Effect : Type :=
| PostMessage (m : OutMessage)
| ShowErrorMessage (text : string)
| ShowWarningMessage (text : string)
| ExportCsv (moduleName baseFileName csvContent csvHeader : string).

(** Outcome of one HTTP exchange, decoded as the caller decodes it:
    [NetworkFailure] when [fetch] or the decoding of the body rejects,
    [HttpError] with the error text of a response that is not ok,
    [HttpOk] with the decoded payload. *)
Inductive FetchResult (A : Type) : Type :=
| NetworkFailure (err : Thrown)
| HttpError (errorText : string)
| HttpOk (payload : A).
Arguments NetworkFailure {A} err.
Arguments HttpError {A} errorText.
Arguments HttpOk {A} payload.

(** The collaborators of the module: the configuration store and the two
    endpoints.  [fetchSubscriptions] answers with the entries of
    [payload.value] after the mapping to [{id, name}] (an entry without a
    string [subscriptionId] has the empty id); [fetchResources] answers
    with the array [data.data] (empty when absent). *)
Class Host (World : Type) : Type := {
  configToken : World -> option string;
  fetchSubscriptions : World -> string -> FetchResult (list SubscriptionInfo) * World;
  fetchResources :
    World -> string -> string -> list string -> FetchResult (list GraphResult) * World
}.

(** Module-level cache of the catalog. *)
Record Cache : Type := {
  cachedSubscriptions : option (list SubscriptionInfo);
  cachedToken : option string
}.

(** State of one panel: the rows of the last lookup, and the cache. *)
Record State : Type := {
  lastResults : list GraphResult;
  cache : Cache
}.

Definition initialState : State :=
  {| lastResults := [];
     cache := {| cachedSubscriptions := None; cachedToken := None |} |}.

(** ** Subscription resolver *)

Definition cacheHit (c : Cache) (token : string) : option (list SubscriptionInfo) :=
  match cachedSubscriptions c with
  | Some (sub :: subs) =>
      if bool_decide (cachedToken c = Some token) then Some (sub :: subs) else None
  | _ => None
  end.

Definition listSubscriptions `{Host World} (c : Cache) (w : World) (token : string)
    : Completion (list SubscriptionInfo) * Cache * World :=
  match cacheHit c token with
  | Some cached => (Returned cached, c, w)
  | None =>
      match fetchSubscriptions w token with
      | (NetworkFailure err, w') => (Threw err, c, w')
      | (HttpError detail, w') =>
          (Threw (ThrownError ("Unable to list subscriptions: " +:+ detail)), c, w')
      | (HttpOk entries, w') =>
          let subs := filter (fun entry => truthy (id entry) = true) entries in
          match subs with
          | [] =>
              (Threw (ThrownError
                 "No subscriptions returned for the current token. Verify the token scope and permissions."),
               c, w')
          | _ =>
              (Returned subs,
               {| cachedSubscriptions := Some subs; cachedToken := Some token |}, w')
          end
      end
  end.

(** [new Map(all.map(sub => [sub.id.toLowerCase(), sub]))]: a later entry
    replaces an earlier one under the same key. *)
Definition byIdMap (all : list SubscriptionInfo) : gmap string SubscriptionInfo :=
  fold_left (fun m sub => <[toLowerCase (id sub) := sub]> m) all ∅.

(** The loop over [requested], with its two accumulators. *)
Fixpoint resolveLoop (byId : gmap string SubscriptionInfo) (requested : list string)
    (seen : gset string) (unique : list SubscriptionInfo) : list SubscriptionInfo :=
  match requested with
  | [] => unique
  | raw :: rest =>
      let key := toLowerCase raw in
      if bool_decide (key ∈ seen) then resolveLoop byId rest seen unique
      else
        let seen' := seen ∪ {[key]} in
        match byId !! key with
        | Some match_ => resolveLoop byId rest seen' (unique ++ [match_])
        | None => resolveLoop byId rest seen' (unique ++ [{| id := raw; name := None |}])
        end
  end.

Definition resolveSubscriptions `{Host World} (c : Cache) (w : World) (token : string)
    (requested : list string) : Completion (list SubscriptionInfo) * Cache * World :=
  match listSubscriptions c w token with
  | (Threw err, c', w') => (Threw err, c', w')
  | (Returned all, c', w') =>
      match requested with
      | [] => (Returned all, c', w')
      | _ => (Returned (resolveLoop (byIdMap all) requested ∅ []), c', w')
      end
  end.

(** ** Fan-out orchestrator *)

Definition queryAzureForCidrs `{Host World} (w : World) (token : string)
    (cidrs subscriptions : list string) : Completion (list GraphResult) * World :=
  match subscriptions with
  | [] => (Returned [], w)
  | _ =>
      let query := buildResourceGraphQuery cidrs in
      match fetchResources w token query subscriptions with
      | (NetworkFailure err, w') => (Threw err, w')
      | (HttpError errorText, w') =>
          (Threw (ThrownError ("Azure Resource Graph request failed: " +:+ errorText)), w')
      | (HttpOk rows, w') => (Returned rows, w')
      end
  end.

(** The body of [for (const subscription of subscriptions)]: [results] is
    [lastResults], [posted] the messages posted so far by the loop. *)
Fixpoint queryEach `{Host World} (token : string) (cidrs : list string)
    (subscriptions : list SubscriptionInfo) (w : World)
    (results : list GraphResult) (posted : list Effect)
    : World * list GraphResult * list Effect :=
  match subscriptions with
  | [] => (w, results, posted)
  | subscription :: rest =>
      let posted1 :=
        posted ++ [PostMessage (SubscriptionStatus (id subscription) Running)] in
      match queryAzureForCidrs w token cidrs [id subscription] with
      | (Returned hits, w') =>
          queryEach token cidrs rest w' (results ++ hits)
            (posted1 ++
             [PostMessage (SubscriptionStatus (id subscription) (Done (length hits)))])
      | (Threw errSub, w') =>
          queryEach token cidrs rest w' results
            (posted1 ++
             [PostMessage (SubscriptionStatus (id subscription) (Error (messageOf errSub)))])
      end
  end.

Definition isSeparator (c : ascii) : bool :=
  Ascii.eqb c ","%char || Ascii.eqb c "010"%char.

Definition parseCidrs (cidr : string) : list string :=
  filter (fun part => truthy part = true) (trim <$> split isSeparator cidr).

Definition parseRequested (subscriptions : option (list string)) : list string :=
  match subscriptions with
  | Some ids => filter (fun i => truthy i = true) (trim <$> ids)
  | None => []
  end.

Definition summaryText (results : list GraphResult) (cidrs : list string) : string :=
  match length results with
  | O => "Search completed. No matches found for " +:+ join ", " cidrs +:+ "."
  | n =>
      "Search completed. Found " +:+ pretty n +:+ " matching entr"
        +:+ (if (n =? 1)%nat then "y" else "ies") +:+ "."
  end.

(** The [try] block of a lookup: the new state and the effects when it
    completes, the thrown value (with the state and the effects so far)
    when it does not. *)
Definition lookupTry `{Host World} (st : State) (w : World) (cidrs requested : list string)
    : Completion unit * State * World * list Effect :=
  let token := trim (default "" (configToken w)) in
  if negb (truthy token) then
    (Threw (ThrownError
       "Configure an Azure Resource Graph token in the Azure CIDR Analyzer settings first."),
     st, w, [])
  else
    match resolveSubscriptions (cache st) w token requested with
    | (Threw err, c', w') =>
        (Threw err, {| lastResults := lastResults st; cache := c' |}, w', [])
    | (Returned [], c', w') =>
        (Threw (ThrownError "No subscriptions available for the current token."),
         {| lastResults := lastResults st; cache := c' |}, w', [])
    | (Returned subscriptions, c', w') =>
        let init := [PostMessage (InitSubscriptions subscriptions)] in
        let '(w'', results, posted) := queryEach token cidrs subscriptions w' [] [] in
        let columns := collectColumns results in
        (Returned tt, {| lastResults := results; cache := c' |}, w'',
         init ++ posted ++
         [PostMessage (DisplayResults cidrs results columns);
          PostMessage (ShowInfo (summaryText results cidrs))])
    end.

Definition lookupCidr `{Host World} (st : State) (w : World) (cidr : string)
    (subscriptions : option (list string)) : State * World * list Effect :=
  let cidrs := parseCidrs cidr in
  let requested := parseRequested subscriptions in
  let '(outcome, st', w', effects) := lookupTry st w cidrs requested in
  let caught :=
    match outcome with
    | Returned _ => []
    | Threw err =>
        let msg := messageOf err in
        [ShowErrorMessage ("Azure CIDR Analyzer error: " +:+ msg);
         PostMessage (ShowError msg)]
    end in
  (st', w',
   [PostMessage (SetLoading true)] ++ effects ++ caught ++ [PostMessage (SetLoading false)]).

Definition sendAvailableSubscriptions `{Host World} (st : State) (w : World)
    : State * World * list Effect :=
  let token := trim (default "" (configToken w)) in
  if negb (truthy token) then
    (st, w,
     [PostMessage (ShowError
        "Configure an Azure Resource Graph token in the Azure CIDR Analyzer settings to load subscriptions.")])
  else
    match listSubscriptions (cache st) w token with
    | (Returned subs, c', w') =>
        ({| lastResults := lastResults st; cache := c' |}, w',
         [PostMessage (SubscriptionOptions subs)])
    | (Threw err, c', w') =>
        let msg := messageOf err in
        ({| lastResults := lastResults st; cache := c' |}, w',
         [ShowErrorMessage ("Failed to load Azure subscriptions: " +:+ msg);
          PostMessage (ShowError msg)])
    end.

Definition exportResults (st : State) : list Effect :=
  match lastResults st with
  | [] =>
      [ShowWarningMessage "No results to export yet. Run a search first.";
       PostMessage (ShowInfo "Run a search to export results.")]
  | rows =>
      let columns := collectColumns rows in
      [ExportCsv "microsoft-azure-cidr-analyzer" "azure-cidr-results"
         (csvBody rows columns) (csvHeader columns +:+ LF)]
  end.

(** The listener registered with [onDidReceiveMessage]. *)
Definition onDidReceiveMessage `{Host World} (st : State) (w : World)
    (message : IncomingMessage) : State * World * list Effect :=
  match message with
  | RequestSubscriptionsMessage => sendAvailableSubscriptions st w
  | LookupMessage cidr subscriptions => lookupCidr st w cidr subscriptions
  | ExportMessage => (st, w, exportResults st)
  end.

(** ** A reader of delimited text

    Fields are separated by commas and records by line feeds; a field that
    starts with a double quote runs to the next double quote that is not
    doubled, and a doubled double quote inside it stands for one.  An empty
    line is a record of one empty field; a line feed at the very end of the
    text does not open a record. *)





(** ** The translation of a wildcard filter, as the specification words it

    Each star becomes [.*], each regular-expression metacharacter is
    preceded by a backslash, every other code unit stands for itself. *)



(** ** The attempts of a lookup

    The queries of one lookup, as issued one after the other against the
    world each one finds, with what each one came to. *)

Fixpoint attempts `{Host World} (token : string) (cidrs : list string)
    (subscriptions : list SubscriptionInfo) (w : World)
    : list (SubscriptionInfo * Completion (list GraphResult)) :=
  match subscriptions with
  | [] => []
  | subscription :: rest =>
      let '(outcome, w') := queryAzureForCidrs w token cidrs [id subscription] in
      (subscription, outcome) :: attempts token cidrs rest w'
  end.

Definition rowsOf (outcome : Completion (list GraphResult)) : list GraphResult :=
  match outcome with
  | Returned hits => hits
  | Threw _ => []
  end.

Definition settledStatus (outcome : Completion (list GraphResult)) : Status :=
  match outcome with
  | Returned hits => Done (length hits)
  | Threw err => Error (messageOf err)
  end.

Definition attemptEvents (attempt : SubscriptionInfo * Completion (list GraphResult))
    : list Effect :=
  [PostMessage (SubscriptionStatus (id attempt.1) Running);
   PostMessage (SubscriptionStatus (id attempt.1) (settledStatus attempt.2))].

(** A [done] or [error] status event of subscription [sid]. *)
Definition isSettledFor (sid : string) (e : Effect) : bool :=
  match e with
  | PostMessage (SubscriptionStatus sid' (Done _ | Error _)) => bool_decide (sid' = sid)
  | _ => false
  end.

Definition isSubscriptionStatus (e : Effect) : bool :=
  match e with
  | PostMessage (SubscriptionStatus _ _) => true
  | _ => false
  end.

Definition isExportCsv (e : Effect) : bool :=
  match e with
  | ExportCsv _ _ _ _ => true
  | _ => false
  end.

(** ** Exporter (exporter.ts) and nonce (nonce.ts) *)

(** [s.includes(needle)] for a needle of any length. *)
Fixpoint includesStr (needle s : string) : bool :=
  if String.prefix needle s then true
  else
    match s with
    | EmptyString => false
    | String _ s' => includesStr needle s'
    end.

(** [s.endsWith(c)] for a one-character needle. *)
Fixpoint endsWithChar (c : ascii) (s : string) : bool :=
  match s with
  | EmptyString => false
  | String d EmptyString => Ascii.eqb d c
  | String _ s' => endsWithChar c s'
  end.

Fixpoint repeatChar (n : nat) (c : ascii) : string :=
  match n with
  | O => EmptyString
  | S n' => String c (repeatChar n' c)
  end.

(** [s.padStart(n, c)] for a one-character filler. *)
Definition padStart (n : nat) (c : ascii) (s : string) : string :=
  repeatChar (n - String.length s) c +:+ s.

(** [s.charAt(i)]: the empty string out of range. *)
Definition charAt (i : nat) (s : string) : string :=
  match String.get i s with
  | Some c => String c EmptyString
  | None => EmptyString
  end.

(** What [exportCsv] reads of [new Date()]: [getFullYear()], [getMonth()]
    (from 0), [getDate()], [getHours()], [getMinutes()]. *)
Record DateParts : Type := {
  fullYear : nat;
  month : nat;
  date : nat;
  hours : nat;
  minutes : nat
}.

(** [String(n).padStart(2, '0')]. *)
Definition twoDigits (n : nat) : string := padStart 2 "0" (pretty n).

Definition timestamp (now : DateParts) : string :=
  pretty (fullYear now) +:+ "-" +:+ twoDigits (month now + 1) +:+ "-" +:+
  twoDigits (date now) +:+ "_" +:+ twoDigits (hours now) +:+ "-" +:+
  twoDigits (minutes now).

(** The name of the file under the module folder. *)
Definition csvFileName (baseFileName : string) (now : DateParts) : string :=
  baseFileName +:+ "-" +:+ timestamp now +:+ ".csv".

Definition gitignoreEntry : string := "/elelabdev".

(** The content [ensureModuleFolder] writes back to [.gitignore], from the
    content it read; [None] when it writes nothing. *)
Definition gitignoreUpdate (content : string) : option string :=
  if includesStr gitignoreEntry content then None
  else
    let content1 := if endsWithChar "010" content then content else content +:+ LF in
    Some (content1 +:+ gitignoreEntry +:+ LF).

Definition possible : string :=
  "ABCDEFGHIJKLMNOPQRSTUVWXYZabcdefghijklmnopqrstuvwxyz0123456789".

(** The loop of [getNonce]: [n] iterations left, [i] done; [random i] is
    [Math.floor(Math.random() * possible.length)] at iteration [i]. *)
Fixpoint getNonce_loop (random : nat → nat) (i n : nat) (text : string) : string :=
  match n with
  | O => text
  | S n' => getNonce_loop random (S i) n' (text +:+ charAt (random i) possible)
  end.

Definition getNonce (random : nat → nat) : string := getNonce_loop random 0 32 "".

(** ** A host that keeps a record of the requests

    The same answers as the host it wraps; the world carries, besides, the
    list of the requests made so far. *)

Inductive Request : Type :=
| CatalogRequest (token : string)
| ResourceRequest (token query : string) (subscriptions : list string).

Definition recording `(H : Host World) : Host (World * list Request) := {|
  configToken w := configToken w.1;
  fetchSubscriptions w token :=
    let '(answer, w') := fetchSubscriptions w.1 token in
    (answer, (w', w.2 ++ [CatalogRequest token]));
  fetchResources w token query subscriptions :=
    let '(answer, w') := fetchResources w.1 token query subscriptions in
    (answer, (w', w.2 ++ [ResourceRequest token query subscriptions]))
|}.

(** ** Auxiliary notions of the statements *)

(** Every code unit of the string is in the class. *)
Fixpoint allChars (p : ascii → bool) (s : string) : bool :=
  match s with
  | EmptyString => true
  | String c s' => p c && allChars p s'
  end.

(** A string that [trimStart] leaves alone: empty, or starting with a code
    unit that is not white space. *)
Definition startsClean (s : string) : Prop :=
  match s with
  | EmptyString => True
  | String c _ => Ascii.is_space c = false
  end.

(** The entries of a cached catalog have an id. *)
Definition cacheOk (c : Cache) : Prop :=
  ∀ subs, cachedSubscriptions c = Some subs → Forall (λ sub, id sub ≠ "") subs.

Definition isSetLoading (e : Effect) : bool :=
  match e with
  | PostMessage (SetLoading _) => true
  | _ => false
  end.

(** The list carried by the [initSubscriptions] message of a lookup. *)
Fixpoint initSubscriptionsOf (effects : list Effect) : list SubscriptionInfo :=
  match effects with
  | [] => []
  | PostMessage (InitSubscriptions subs) :: _ => subs
  | _ :: rest => initSubscriptionsOf rest
  end.

(** The requests a lookup is expected to make. *)
Definition catalogRequests (c : Cache) (token : string) : list Request :=
  match cacheHit c token with
  | Some _ => []
  | None => [CatalogRequest token]
  end.

Definition resourceRequests (token : string) (cidrs : list string)
    (subs : list SubscriptionInfo) : list Request :=
  (λ sub, ResourceRequest token (buildResourceGraphQuery cidrs) [id sub]) <$> subs.

(** The parts of a date are in their ranges. *)
Definition validDate (now : DateParts) : Prop :=
  month now < 12 ∧ 1 ≤ date now ≤ 31 ∧ hours now < 24 ∧ minutes now < 60.



(** The keys gathered by the loops of [collectColumns], before the sort. *)
Definition gatherKeys (rows : list GraphResult) (cols : list string) : list string :=
  fold_left (fun cols row => fold_left Set_add (Object_keys row) cols) rows cols.


(** The strings a reader is expected to find, row by row, column by column. *)
Definition cellTexts (rows : list GraphResult) (columns : list string) : list (list string) :=
  (fun row => (fun col => cellText (row !! col)) <$> columns) <$> rows.

(** An entry of the resolved list: an entry of the catalog, or a bare
    entry for the first requested id of a key that the catalog lacks. *)
Definition resolvedEntry (all : list SubscriptionInfo) (requested : list string)
    (entry : SubscriptionInfo) : Prop :=
  entry ∈ all
  ∨ (name entry = None
     ∧ (∀ c, c ∈ all → toLowerCase (id c) ≠ toLowerCase (id entry))
     ∧ ∃ pre post, requested = pre ++ id entry :: post
                   ∧ toLowerCase (id entry) ∉ toLowerCase <$> pre).

(** ** Sample data *)

Module Sample.

Definition subA : SubscriptionInfo := {| id := "sub-a"; name := Some "Prod" |}.
Definition subB : SubscriptionInfo := {| id := "sub-b"; name := Some "Test" |}.

Definition rowsA : list GraphResult :=
  [ {[ "name" := JString "vnet-1"; "prefixStr" := JString "10.0.0.0/24" ]};
    {[ "name" := JString "vnet-2"; "prefixStr" := JString "10.0.1.0/24" ]};
    {[ "name" := JString "ipg"; "prefixStr" := JString "10.0.2.0/24";
       "tags" := JObject [("env", JString "prod")] ]} ].

(** A world is the configured token; subscription [sub-a] answers with
    three rows, every other one fails on the network. *)
Definition host : Host (option string) := {|
  configToken w := w;
  fetchSubscriptions w token := (HttpOk [subA; subB], w);
  fetchResources w token query subscriptions :=
    (if bool_decide (subscriptions = ["sub-a"]) then HttpOk rowsA
     else NetworkFailure (ThrownError "network error"), w)
|}.

(** A host whose catalog endpoint rejects the token. *)
Definition noon : DateParts :=
  {| fullYear := 2025; month := 0; date := 9; hours := 12; minutes := 5 |}.

Definition hostDown : Host (option string) := {|
  configToken w := w;
  fetchSubscriptions w token := (HttpError "401", w);
  fetchResources w token query subscriptions := (HttpOk rowsA, w)
|}.

Definition said : string := "He said " +:+ DQUOTE +:+ "hi" +:+ DQUOTE.

Definition rowsQ : list GraphResult :=
  [ {[ "a" := JNumber 1; "b" := JString said ]};
    {[ "b" := JArray [JNumber 3; JNull]; "c" := JBool true ]} ].

End Sample.

(** * Properties *)

(** [each_elem H] goes through the elements of the literal list that the
    hypothesis [H : x ∈ [a; b; ...]] speaks of. *)
Ltac each_elem H :=
  repeat (apply elem_of_cons in H as [->|H]; [reflexivity|]);
  by apply elem_of_nil in H.

(** ** The built-ins on samples *)

Example trim_sample : trim (" " +:+ LF +:+ " 10.0.0.0/24 x  ") = "10.0.0.0/24 x".
Proof. reflexivity. Qed.

Example parseCidrs_sample :
  parseCidrs (" 10.0.0.0/24, 10.1.*" +:+ LF +:+ " ,, FD00::/8 ") = ["10.0.0.0/24"; "10.1.*"; "FD00::/8"].
Proof. reflexivity. Qed.

Example Set_from_sample : Set_from ["b"; "a"; "b"; "c"; "a"] = ["b"; "a"; "c"].
Proof. reflexivity. Qed.

Example sort_sample : Js.sort ["b"; "a"; "C"; "ab"; ""] = [""; "C"; "a"; "ab"; "b"].
Proof. reflexivity. Qed.

Example JSON_stringify_sample :
  JSON_stringify (JObject [("k", JArray [JNumber (-2); JNull; JString ("a" +:+ LF)])])
  = "{" +:+ DQUOTE +:+ "k" +:+ DQUOTE +:+ ":[-2,null," +:+ DQUOTE +:+ "a\n" +:+ DQUOTE +:+ "]}".
Proof. reflexivity. Qed.

(** ** Strings *)

Section string_facts.

Lemma str_app_cons c (s t : string) : String c s +:+ t = String c (s +:+ t).
Proof. reflexivity. Qed.

Lemma str_app_nil_l (s : string) : "" +:+ s = s.
Proof. reflexivity. Qed.


Lemma str_app_assoc (s t u : string) : (s +:+ t) +:+ u = s +:+ (t +:+ u).
Proof. induction s as [|c s IH]; [reflexivity|]. rewrite !str_app_cons. by f_equal. Qed.




Lemma truthy_toLowerCase s : truthy (toLowerCase s) = truthy s.
Proof. by destruct s. Qed.

Lemma truthy_true s : truthy s = true ↔ s ≠ "".
Proof. destruct s; simpl; split; congruence. Qed.

End string_facts.

(** ** Insertion-ordered sets *)

Section set_facts.

Lemma Set_add_fold_elem (l acc : list string) x :
  x ∈ fold_left Set_add l acc ↔ x ∈ acc ∨ x ∈ l.
Proof.
  revert acc. induction l as [|y l IH]; intros acc; simpl.
  - rewrite elem_of_nil. tauto.
  - rewrite IH, elem_of_cons. unfold Set_add. case_bool_decide as Hy.
    + split; [tauto|]. intros [?|[->|?]]; auto.
    + rewrite elem_of_app, list_elem_of_singleton. tauto.
Qed.

Lemma Set_add_fold_NoDup (l acc : list string) :
  NoDup acc → NoDup (fold_left Set_add l acc).
Proof.
  revert acc. induction l as [|y l IH]; intros acc Hacc; simpl; [done|].
  apply IH. unfold Set_add. case_bool_decide as Hy; [done|].
  apply NoDup_app. split_and!; [done| |apply NoDup_singleton].
  intros x Hx ->%list_elem_of_singleton. done.
Qed.

Lemma Set_from_elem l x : x ∈ Set_from l ↔ x ∈ l.
Proof. unfold Set_from. rewrite Set_add_fold_elem, elem_of_nil. tauto. Qed.

Lemma Set_from_NoDup l : NoDup (Set_from l).
Proof. apply Set_add_fold_NoDup, NoDup_nil_2. Qed.

Lemma Set_add_fold_acc (l acc : list string) :
  fold_left Set_add l acc = acc ++ filter (λ y, y ∉ acc) (Set_from l).
Proof.
  induction l as [|x l IH] using rev_ind.
  - cbn. by rewrite app_nil_r.
  - unfold Set_from. rewrite !fold_left_app. cbn [fold_left].
    fold (Set_from l). rewrite IH. unfold Set_add.
    destruct (decide (x ∈ Set_from l)) as [Hin|Hnin].
    + rewrite (bool_decide_eq_true_2 (x ∈ Set_from l)) by done.
      rewrite bool_decide_eq_true_2; [done|].
      rewrite elem_of_app, list_elem_of_filter.
      destruct (decide (x ∈ acc)); [by left|by right].
    + rewrite (bool_decide_eq_false_2 (x ∈ Set_from l)) by done.
      rewrite filter_app. destruct (decide (x ∈ acc)) as [Hacc|Hacc].
      * rewrite bool_decide_eq_true_2 by (apply elem_of_app; by left).
        rewrite filter_cons_False by (intros Hx; by apply Hx).
        by rewrite filter_nil, app_nil_r.
      * rewrite bool_decide_eq_false_2.
        -- rewrite filter_cons_True by done. by rewrite filter_nil, (assoc_L (++)).
        -- rewrite elem_of_app, list_elem_of_filter. tauto.
Qed.

(** The set of a list starts with the head of the list, and goes on with
    the set of the tail without that head: elements come in the order of
    their first occurrence. *)
Lemma Set_from_cons x l : Set_from (x :: l) = x :: filter (λ y, y ≠ x) (Set_from l).
Proof.
  unfold Set_from at 1. cbn [fold_left]. unfold Set_add at 2.
  rewrite bool_decide_eq_false_2 by apply not_elem_of_nil.
  rewrite Set_add_fold_acc. cbn [app]. f_equal.
  apply list_filter_iff. intros y. by rewrite list_elem_of_singleton.
Qed.

Lemma lowerSet_elem cidrs t :
  t ∈ lowerSet cidrs ↔ t ≠ "" ∧ ∃ c, c ∈ cidrs ∧ t = toLowerCase c.
Proof.
  unfold lowerSet. rewrite Set_from_elem, list_elem_of_filter, list_elem_of_fmap.
  rewrite truthy_true. split; intros [? (c & ? & ?)]; eauto.
Qed.

Lemma lowerSet_NoDup cidrs : NoDup (lowerSet cidrs).
Proof. apply Set_from_NoDup. Qed.

End set_facts.

(** ** Query builder *)

Section wildcard_translation.






Lemma prefix_cons a s b t :
  String.prefix (String a s) (String b t) =
    if ascii_dec a b then String.prefix s t else false.
Proof. reflexivity. Qed.







End wildcard_translation.

Section query_builder.


Lemma lowerSet_all_empty cidrs : (∀ c, c ∈ cidrs → c = "") → lowerSet cidrs = [].
Proof.
  intros Hall. destruct (lowerSet cidrs) as [|t l] eqn:Hl; [done|].
  assert (t ∈ lowerSet cidrs) as (Ht & c & Hc & ->)%lowerSet_elem
    by (rewrite Hl; left).
  by rewrite (Hall c Hc) in Ht.
Qed.


Lemma filter_none {A} (P : A → Prop) `{!∀ x, Decision (P x)} (l : list A) :
  (∀ x, x ∈ l → ¬ P x) → filter P l = [].
Proof.
  induction l as [|x l IH]; intros Hall; [done|].
  rewrite filter_cons_False by (apply Hall; left).
  apply IH. intros y Hy. apply Hall. by right.
Qed.





Lemma str_length_app (s t : string) :
  String.length (s +:+ t) = String.length s + String.length t.
Proof. induction s as [|c s IH]; [done|]. rewrite str_app_cons. simpl. by rewrite IH. Qed.

Lemma str_app_inv_tail (s t u : string) : s +:+ u = t +:+ u → s = t.
Proof.
  revert t. induction s as [|c s IH]; intros [|d t]; rewrite ?str_app_cons, ?str_app_nil_l.
  - done.
  - intros H. apply (f_equal String.length) in H. simpl in H.
    rewrite str_length_app in H. lia.
  - intros H. apply (f_equal String.length) in H. simpl in H.
    rewrite str_length_app in H. lia.
  - intros [= -> H]. f_equal. by apply IH.
Qed.


End query_builder.

(** C6. Applied to the empty filter list, or to a list of empty strings only,
    [buildResourceGraphQuery] renders no filter clause: the fragment
    [filterClause] is the empty string and the query is the fixed text that
    scans and projects the fixed resource types. *)
Theorem empty_filters_no_filter_clause (cidrs : list string) :
  (∀ c, c ∈ cidrs → c = "") →
  filterClause cidrs = "" ∧ buildResourceGraphQuery cidrs = unfilteredQuery.
Proof.
  intros Hall. unfold buildResourceGraphQuery, filterClause, clauses.
  unfold exactMatches, wildcardMatches. rewrite (lowerSet_all_empty _ Hall).
  split; reflexivity.
Qed.

Lemma empty_filters_no_filter_clause_witness :
  filterClause [""; ""] = "" ∧ buildResourceGraphQuery [""; ""] = unfilteredQuery.
Proof.
  apply (empty_filters_no_filter_clause [""; ""]).
  intros c Hc. each_elem Hc.
Defined.



Example exact_filters_sample :
  filterClause ["10.0.0.0/24"; "FD00::/8"; "fd00::/8"; ""; "10.0.0.0/24"] =
    LF +:+ "| where prefixStr in~ ('10.0.0.0/24', 'fd00::/8')".
Proof. reflexivity. Qed.



Example wildcard_filters_sample :
  filterClause ["10.0.0.0/24"; "10.10.*"; "FD00:*:(1)"] =
    LF +:+ "| where prefixStr in~ ('10.0.0.0/24') or prefixStr matches regex '^10\.10\..*$' or prefixStr matches regex '^fd00:.*:\(1\)$'".
Proof. reflexivity. Qed.




(** ** Result projector *)

Section collect_columns.

Lemma Object_keys_elem (row : GraphResult) k : k ∈ Object_keys row ↔ is_Some (row !! k).
Proof.
  unfold Object_keys. rewrite list_elem_of_fmap. split.
  - intros ([k' v] & -> & Hkv%elem_of_map_to_list). by exists v.
  - intros [v Hv]. exists (k, v). split; [done|]. by apply elem_of_map_to_list.
Qed.

Lemma gatherKeys_elem rows cols k :
  k ∈ gatherKeys rows cols ↔ k ∈ cols ∨ ∃ row, row ∈ rows ∧ is_Some (row !! k).
Proof.
  revert cols. induction rows as [|row rows IH]; intros cols; simpl.
  - split; [auto|]. intros [?|(row & []%elem_of_nil & _)]. done.
  - rewrite IH, Set_add_fold_elem, Object_keys_elem. split.
    + intros [[?|?]|(r & ? & ?)]; [by left|right..].
      * exists row. split; [left|done].
      * exists r. split; [by right|done].
    + intros [?|(r & [->|?]%elem_of_cons & ?)]; [by left; left|by left; right|].
      right. by exists r.
Qed.

Lemma gatherKeys_NoDup rows cols : NoDup cols → NoDup (gatherKeys rows cols).
Proof.
  revert cols. induction rows as [|row rows IH]; intros cols Hc; simpl; [done|].
  by apply IH, Set_add_fold_NoDup.
Qed.

Lemma sort_elem l k : k ∈ Js.sort l ↔ k ∈ l.
Proof. unfold Js.sort. by rewrite merge_sort_Permutation. Qed.

Lemma sort_NoDup l : NoDup l → NoDup (Js.sort l).
Proof. unfold Js.sort. by rewrite merge_sort_Permutation. Qed.

Lemma sort_sorted l : StronglySorted String.le (Js.sort l).
Proof. apply StronglySorted_merge_sort; apply _. Qed.

(** Any ascending arrangement of the same elements is the one [sort]
    returns: the model of [sort] does not depend on the algorithm. *)
Lemma sort_unique l l' : l' ≡ₚ l → Sorted String.le l' → l' = Js.sort l.
Proof.
  intros Hp Hs. apply (Sorted_unique String.le); [done|apply Sorted_merge_sort, _|].
  unfold Js.sort. by rewrite merge_sort_Permutation.
Qed.

End collect_columns.

(** C7. [collectColumns] returns the union of the keys of all rows, without
    duplicates, in ascending lexicographic order; on the rows [{a:1,b:2}]
    and [{b:3,c:4}] it returns [a], [b], [c].  (Being a function of its
    argument alone, it gives the same output for the same input.) *)
Theorem collectColumns_sorted_union (rows : list GraphResult) :
  (∀ k, k ∈ collectColumns rows ↔ ∃ row, row ∈ rows ∧ is_Some (row !! k))
  ∧ NoDup (collectColumns rows)
  ∧ StronglySorted String.le (collectColumns rows)
  ∧ collectColumns [ {[ "a" := JNumber 1; "b" := JNumber 2 ]};
                     {[ "b" := JNumber 3; "c" := JNumber 4 ]} ] = ["a"; "b"; "c"].
Proof.
  unfold collectColumns. fold (gatherKeys rows []). split_and!.
  - intros k. rewrite sort_elem, gatherKeys_elem, elem_of_nil. tauto.
  - apply sort_NoDup, gatherKeys_NoDup, NoDup_nil_2.
  - apply sort_sorted.
  - by vm_compute.
Qed.

Section delimited_text.

Implicit Types (field str rest : string) (record : list string).









End delimited_text.



Example delimited_text_sample :
  cellTexts Sample.rowsQ ["a"; "b"; "c"] = [["1"; Sample.said; ""]; [""; "[3,null]"; "true"]]
  ∧ csvCell {[ "b" := JString Sample.said ]} "b"
    = DQUOTE +:+ "He said " +:+ DQUOTE +:+ DQUOTE +:+ "hi" +:+ DQUOTE +:+ DQUOTE +:+ DQUOTE.
Proof. split; by vm_compute. Qed.

(** ** Subscription resolver *)

Section resolver.

Lemma byIdMap_fold_Some all : ∀ (m : gmap string SubscriptionInfo) key sub,
  fold_left (fun m sub => <[toLowerCase (id sub) := sub]> m) all m !! key = Some sub →
  (sub ∈ all ∧ toLowerCase (id sub) = key) ∨ m !! key = Some sub.
Proof.
  induction all as [|c all IH]; intros m key sub Hl; simpl in Hl; [by right|].
  apply IH in Hl as [[? ?]|Hl]; [left; split; [by right|done]|].
  destruct (decide (toLowerCase (id c) = key)) as [<-|Hne].
  - rewrite lookup_insert_eq in Hl. injection Hl as ->. left. split; [left|done].
  - rewrite lookup_insert_ne in Hl by done. by right.
Qed.

Lemma byIdMap_fold_None all : ∀ (m : gmap string SubscriptionInfo) key,
  fold_left (fun m sub => <[toLowerCase (id sub) := sub]> m) all m !! key = None →
  (∀ c, c ∈ all → toLowerCase (id c) ≠ key) ∧ m !! key = None.
Proof.
  induction all as [|c all IH]; intros m key Hl; simpl in Hl.
  - split; [|done]. by intros c []%elem_of_nil.
  - apply IH in Hl as [Hall Hl].
    destruct (decide (toLowerCase (id c) = key)) as [<-|Hne].
    + by rewrite lookup_insert_eq in Hl.
    + rewrite lookup_insert_ne in Hl by done. split; [|done].
      intros c' [->|?]%elem_of_cons; auto.
Qed.

Lemma byIdMap_Some all key sub :
  byIdMap all !! key = Some sub → sub ∈ all ∧ toLowerCase (id sub) = key.
Proof. intros [?|?]%byIdMap_fold_Some; [done|]. by rewrite lookup_empty in *. Qed.

Lemma byIdMap_None all key :
  byIdMap all !! key = None → ∀ c, c ∈ all → toLowerCase (id c) ≠ key.
Proof. by intros [? _]%byIdMap_fold_None. Qed.

Lemma Set_from_snoc l x : Set_from (l ++ [x]) = Set_add (Set_from l) x.
Proof. unfold Set_from. by rewrite fold_left_app. Qed.

Lemma resolveLoop_spec all requested : ∀ rest pre (seen : gset string) unique,
  requested = pre ++ rest →
  (∀ k, k ∈ seen ↔ k ∈ toLowerCase <$> pre) →
  (toLowerCase ∘ id) <$> unique = Set_from (toLowerCase <$> pre) →
  Forall (resolvedEntry all requested) unique →
  let result := resolveLoop (byIdMap all) rest seen unique in
  (toLowerCase ∘ id) <$> result = Set_from (toLowerCase <$> requested)
  ∧ Forall (resolvedEntry all requested) result.
Proof.
  induction rest as [|raw rest IH]; intros pre seen unique Hreq Hseen Hkeys Hall; simpl.
  - rewrite app_nil_r in Hreq. by subst.
  - assert (requested = (pre ++ [raw]) ++ rest) as Hreq'
      by by rewrite <- (assoc_L (++)).
    assert (toLowerCase <$> pre ++ [raw] = (toLowerCase <$> pre) ++ [toLowerCase raw])
      as Hfmap by by rewrite fmap_app.
    case_bool_decide as Hin.
    + apply (IH (pre ++ [raw])); [done| | |done].
      * intros k. rewrite Hfmap, elem_of_app, list_elem_of_singleton, <- Hseen.
        split; [auto|]. intros [?| ->]; done.
      * rewrite Hfmap, Set_from_snoc. unfold Set_add.
        rewrite bool_decide_eq_true_2; [done|]. by apply Set_from_elem, Hseen.
    + assert (∀ k, k ∈ seen ∪ {[toLowerCase raw]} ↔ k ∈ toLowerCase <$> pre ++ [raw])
        as Hseen'.
      { intros k.
        by rewrite Hfmap, elem_of_app, list_elem_of_singleton, elem_of_union,
          elem_of_singleton, <- Hseen. }
      assert (Set_from (toLowerCase <$> pre ++ [raw])
              = Set_from (toLowerCase <$> pre) ++ [toLowerCase raw]) as Hset.
      { rewrite Hfmap, Set_from_snoc. unfold Set_add.
        rewrite bool_decide_eq_false_2; [done|]. by rewrite Set_from_elem, <- Hseen. }
      destruct (byIdMap all !! toLowerCase raw) as [sub|] eqn:Hby.
      * apply byIdMap_Some in Hby as [Hsub Hkey].
        apply (IH (pre ++ [raw])); [done|done| |].
        -- rewrite fmap_app, Hkeys, Hset. cbn. by rewrite Hkey.
        -- apply Forall_app. split; [done|]. apply Forall_singleton. by left.
      * apply (IH (pre ++ [raw])); [done|done| |].
        -- by rewrite fmap_app, Hkeys, Hset.
        -- apply Forall_app. split; [done|]. apply Forall_singleton. right. cbn.
           split_and!; [done|by apply byIdMap_None|].
           exists pre, rest. split; [done|]. by rewrite <- Hseen.
Qed.

Lemma resolveSubscriptions_distinct `{Host World} (c : Cache) (w : World) token
    requested subs c' w' :
  requested ≠ [] →
  resolveSubscriptions c w token requested = (Returned subs, c', w') →
  NoDup (id <$> subs).
Proof.
  intros Hne. unfold resolveSubscriptions.
  destruct (listSubscriptions c w token) as [[[all|err] c1] w1]; [|done].
  destruct requested as [|raw rest]; [done|]. intros Heq.
  assert (subs = resolveLoop (byIdMap all) (raw :: rest) ∅ []) as -> by congruence.
  destruct (resolveLoop_spec all (raw :: rest) (raw :: rest) [] ∅ []) as [Hkeys _];
    [done|by intros k; rewrite fmap_nil, elem_of_empty, elem_of_nil|done|done|].
  apply (NoDup_fmap_1 toLowerCase). rewrite <- list_fmap_compose, Hkeys.
  apply Set_from_NoDup.
Qed.

Lemma listSubscriptions_nonempty `{Host World} (c : Cache) (w : World) token all c' w' :
  listSubscriptions c w token = (Returned all, c', w') → all ≠ [].
Proof.
  unfold listSubscriptions, cacheHit.
  destruct (cachedSubscriptions c) as [[|sub subs]|].
  - destruct (fetchSubscriptions w token) as [[err|detail|entries] w1]; [done..|].
    destruct (filter _ entries); [done|]. by intros [= <- _ _].
  - case_bool_decide; [by intros [= <- _ _]|].
    destruct (fetchSubscriptions w token) as [[err|detail|entries] w1]; [done..|].
    destruct (filter _ entries); [done|]. by intros [= <- _ _].
  - destruct (fetchSubscriptions w token) as [[err|detail|entries] w1]; [done..|].
    destruct (filter _ entries); [done|]. by intros [= <- _ _].
Qed.

(** Resolution never returns an empty list: the guard of the handler on
    the length of the resolved list is never taken. *)
Lemma resolveSubscriptions_nonempty `{Host World} (c : Cache) (w : World) token
    requested subs c' w' :
  resolveSubscriptions c w token requested = (Returned subs, c', w') → subs ≠ [].
Proof.
  unfold resolveSubscriptions.
  destruct (listSubscriptions c w token) as [[[all|err] c1] w1] eqn:Hlist; [|done].
  destruct requested as [|raw rest].
  - intros [= <- _ _]. by apply (listSubscriptions_nonempty _ _ _ _ _ _ Hlist).
  - intros Heq.
    assert (subs = resolveLoop (byIdMap all) (raw :: rest) ∅ []) as -> by congruence.
    destruct (resolveLoop_spec all (raw :: rest) (raw :: rest) [] ∅ []) as [Hkeys _];
      [done|by intros k; rewrite fmap_nil, elem_of_empty, elem_of_nil|done|done|].
    intros Hnil. rewrite Hnil, fmap_cons, Set_from_cons in Hkeys. done.
Qed.

End resolver.

(** C4. When [listSubscriptions] returns the catalog [all]: for an empty
    request [resolveSubscriptions] returns [all] itself; otherwise its result
    has one entry for each distinct lower-cased requested id, in the order
    of first occurrence, and each entry is an entry of the catalog (as
    stored) or, when no id of the catalog matches, a bare entry without name
    whose id is the requested string of that first occurrence. *)
Theorem resolveSubscriptions_spec `{Host World} (c : Cache) (w : World) (token : string)
    (requested : list string) (all : list SubscriptionInfo) (c' : Cache) (w' : World) :
  listSubscriptions c w token = (Returned all, c', w') →
  ∃ result,
    resolveSubscriptions c w token requested = (Returned result, c', w')
    ∧ (requested = [] → result = all)
    ∧ (requested ≠ [] →
       (toLowerCase ∘ id) <$> result = Set_from (toLowerCase <$> requested)
       ∧ NoDup ((toLowerCase ∘ id) <$> result)
       ∧ Forall (resolvedEntry all requested) result).
Proof.
  intros Hlist. unfold resolveSubscriptions. rewrite Hlist.
  destruct requested as [|raw rest]; [by exists all|].
  eexists. split; [done|]. split; [done|]. intros _.
  destruct (resolveLoop_spec all (raw :: rest) (raw :: rest) [] ∅ []) as [Hkeys Hall];
    [done|by intros k; rewrite fmap_nil, elem_of_empty, elem_of_nil|done|done|].
  split_and!; [done| |done]. rewrite Hkeys. apply Set_from_NoDup.
Qed.

Lemma resolveSubscriptions_spec_witness :
  ∃ result,
    resolveSubscriptions (H:=Sample.host) (cache initialState) (Some "tok") "tok"
      ["SUB-B"; "x"; "sub-b"; "X"]
    = (Returned result,
       {| cachedSubscriptions := Some [Sample.subA; Sample.subB]; cachedToken := Some "tok" |},
       Some "tok")
    ∧ (toLowerCase ∘ id) <$> result = Set_from (toLowerCase <$> ["SUB-B"; "x"; "sub-b"; "X"])
    ∧ NoDup ((toLowerCase ∘ id) <$> result)
    ∧ Forall (resolvedEntry [Sample.subA; Sample.subB] ["SUB-B"; "x"; "sub-b"; "X"]) result.
Proof.
  destruct (resolveSubscriptions_spec (H:=Sample.host) (cache initialState) (Some "tok") "tok"
              ["SUB-B"; "x"; "sub-b"; "X"] [Sample.subA; Sample.subB]
              {| cachedSubscriptions := Some [Sample.subA; Sample.subB];
                 cachedToken := Some "tok" |}
              (Some "tok")) as (result & Hresolve & _ & Hspec); [reflexivity|].
  exists result. split; [exact Hresolve|]. apply Hspec. discriminate.
Defined.

Example resolveSubscriptions_sample :
  resolveSubscriptions (H:=Sample.host) (cache initialState) (Some "tok") "tok"
    ["SUB-B"; "x"; "sub-b"; "X"]
  = (Returned [Sample.subB; {| id := "x"; name := None |}],
     {| cachedSubscriptions := Some [Sample.subA; Sample.subB]; cachedToken := Some "tok" |},
     Some "tok").
Proof. reflexivity. Qed.

(** ** Fan-out orchestrator *)

Section orchestrator.

Context `{Host World}.

Lemma queryEach_attempts token cidrs subscriptions : ∀ w results posted,
  let tries := attempts token cidrs subscriptions w in
  (queryEach token cidrs subscriptions w results posted).1.2
    = results ++ concat (rowsOf ∘ snd <$> tries)
  ∧ (queryEach token cidrs subscriptions w results posted).2
    = posted ++ (tries ≫= attemptEvents).
Proof.
  induction subscriptions as [|sub rest IH]; intros w results posted;
    cbn [queryEach attempts].
  - cbn. by rewrite !app_nil_r.
  - destruct (queryAzureForCidrs w token cidrs [id sub]) as [[hits|err] w'].
    + destruct (IH w' (results ++ hits)
        ((posted ++ [PostMessage (SubscriptionStatus (id sub) Running)]) ++
         [PostMessage (SubscriptionStatus (id sub) (Done (length hits)))])) as [-> ->].
      cbn. by rewrite <- !(assoc_L (++)).
    + destruct (IH w' results
        ((posted ++ [PostMessage (SubscriptionStatus (id sub) Running)]) ++
         [PostMessage (SubscriptionStatus (id sub) (Error (messageOf err)))])) as [-> ->].
      cbn. by rewrite <- !(assoc_L (++)).
Qed.

Lemma attempts_subscriptions token cidrs subscriptions : ∀ w,
  (attempts token cidrs subscriptions w).*1 = subscriptions.
Proof.
  induction subscriptions as [|sub rest IH]; intros w; cbn [attempts]; [done|].
  destruct (queryAzureForCidrs w token cidrs [id sub]) as [outcome w'].
  cbn. by rewrite IH.
Qed.

Lemma settled_absent sid (tries : list (SubscriptionInfo * Completion (list GraphResult))) :
  sid ∉ id <$> tries.*1 →
  filter (fun e => isSettledFor sid e = true) (tries ≫= attemptEvents) = [].
Proof.
  induction tries as [|[sub outcome] tries IH]; intros Hnot; [done|].
  cbn in Hnot. apply not_elem_of_cons in Hnot as [Hne Hnot].
  cbn [mbind list_bind attemptEvents fst snd app].
  rewrite filter_cons_False by (cbn; congruence).
  rewrite filter_cons_False; [by apply IH|].
  cbn. destruct (settledStatus outcome); [done|..];
    by rewrite bool_decide_eq_false_2 by congruence.
Qed.

Lemma settled_once sub outcome
    (tries : list (SubscriptionInfo * Completion (list GraphResult))) :
  NoDup (id <$> tries.*1) →
  (sub, outcome) ∈ tries →
  settledStatus outcome ≠ Running
  ∧ filter (fun e => isSettledFor (id sub) e = true) (tries ≫= attemptEvents)
    = [PostMessage (SubscriptionStatus (id sub) (settledStatus outcome))].
Proof.
  intros Hnd Hin. split; [by destruct outcome|].
  induction tries as [|[sub0 outcome0] tries IH]; [by apply elem_of_nil in Hin|].
  cbn in Hnd. apply NoDup_cons in Hnd as [Hfresh Hnd].
  cbn [mbind list_bind attemptEvents fst snd app].
  rewrite filter_cons_False by (cbn; congruence).
  apply elem_of_cons in Hin as [[= <- <-]|Hin].
  - rewrite filter_cons_True.
    + f_equal. by apply settled_absent.
    + cbn. destruct (settledStatus outcome) eqn:Hst;
        [by destruct outcome|by rewrite bool_decide_eq_true_2..].
  - assert (id sub0 ≠ id sub) as Hne.
    { intros Heq. apply Hfresh. rewrite Heq.
      apply list_elem_of_fmap. exists sub. split; [done|].
      apply list_elem_of_fmap. by exists (sub, outcome). }
    rewrite filter_cons_False; [by apply IH|].
    cbn. destruct (settledStatus outcome0); [done|..];
      by rewrite bool_decide_eq_false_2 by congruence.
Qed.

End orchestrator.

(** C2. In a lookup whose resolution succeeds with a non-empty list, every
    resolved subscription is attempted once, in the order of the list,
    whatever the other attempts came to; the aggregated result holds the
    rows of the successful attempts in that order; the events of the loop
    are, attempt by attempt, [running] followed by [done] with the number of
    rows returned, or by [error] with the message of the failure; so (the
    ids of the list being distinct) a subscription gets exactly one settled
    event: the [error] one when its query failed, the [done] one otherwise. *)
Theorem lookup_failure_isolated `{Host World} (st : State) (w : World) (cidr : string)
    (subscriptions : option (list string)) (token : string)
    (subs : list SubscriptionInfo) (c' : Cache) (w' : World) :
  trim (default "" (configToken w)) = token →
  truthy token = true →
  resolveSubscriptions (cache st) w token (parseRequested subscriptions)
    = (Returned subs, c', w') →
  subs ≠ [] →
  let cidrs := parseCidrs cidr in
  let tries := attempts token cidrs subs w' in
  let outcome := onDidReceiveMessage st w (LookupMessage cidr subscriptions) in
  let results := lastResults outcome.1.1 in
  tries.*1 = subs
  ∧ results = concat (rowsOf ∘ snd <$> tries)
  ∧ outcome.2 =
      PostMessage (SetLoading true) :: PostMessage (InitSubscriptions subs) ::
      (tries ≫= attemptEvents) ++
      [PostMessage (DisplayResults cidrs results (collectColumns results));
       PostMessage (ShowInfo (summaryText results cidrs));
       PostMessage (SetLoading false)]
  ∧ (parseRequested subscriptions ≠ [] ∨ NoDup (id <$> subs) →
     ∀ sub attempt, (sub, attempt) ∈ tries →
       filter (fun e => isSettledFor (id sub) e = true) outcome.2
       = [PostMessage (SubscriptionStatus (id sub) (settledStatus attempt))]).
Proof.
  intros Htoken Htruthy Hresolve Hne cidrs tries outcome results.
  assert (tries.*1 = subs) as Htries by apply attempts_subscriptions.
  destruct (queryEach_attempts token cidrs subs w' [] []) as [Hrows Hposted].
  fold tries in Hrows, Hposted. cbn [app] in Hrows, Hposted.
  assert (outcome =
    ({| lastResults := (queryEach token cidrs subs w' [] []).1.2; cache := c' |},
     (queryEach token cidrs subs w' [] []).1.1,
     [PostMessage (SetLoading true)] ++
     ([PostMessage (InitSubscriptions subs)] ++ (queryEach token cidrs subs w' [] []).2 ++
      [PostMessage (DisplayResults cidrs (queryEach token cidrs subs w' [] []).1.2
                      (collectColumns (queryEach token cidrs subs w' [] []).1.2));
       PostMessage (ShowInfo (summaryText (queryEach token cidrs subs w' [] []).1.2 cidrs))])
      ++ [] ++ [PostMessage (SetLoading false)])) as Houtcome.
  { subst outcome. unfold onDidReceiveMessage, lookupCidr, lookupTry.
    rewrite Htoken, Htruthy. cbn [negb]. rewrite Hresolve. fold cidrs.
    destruct subs as [|sub subs]; [done|].
    by destruct (queryEach token cidrs (sub :: subs) w' [] []) as [[? ?] ?]. }
  assert (results = concat (rowsOf ∘ snd <$> tries)) as Hresults.
  { subst results. by rewrite Houtcome. }
  assert (outcome.2 =
      PostMessage (SetLoading true) :: PostMessage (InitSubscriptions subs) ::
      (tries ≫= attemptEvents) ++
      [PostMessage (DisplayResults cidrs results (collectColumns results));
       PostMessage (ShowInfo (summaryText results cidrs));
       PostMessage (SetLoading false)]) as Heffects.
  { rewrite Hresults. rewrite Houtcome. cbn [snd]. rewrite Hrows, Hposted.
    cbn [app]. by rewrite <- !(assoc_L (++)). }
  split_and!; [done..|].
  intros Hdistinct sub attempt Hin.
  assert (NoDup (id <$> subs)) as Hnd.
  { destruct Hdistinct as [Hreq|Hnd]; [|done].
    by apply (resolveSubscriptions_distinct _ _ _ _ _ _ _ Hreq Hresolve). }
  rewrite Heffects.
  rewrite !filter_cons_False by (cbn; congruence).
  rewrite filter_app. rewrite <- Htries in Hnd.
  destruct (settled_once sub attempt tries Hnd Hin) as [_ ->].
  by rewrite !filter_cons_False by (cbn; congruence).
Qed.

Lemma lookup_failure_isolated_witness :
  let outcome :=
    onDidReceiveMessage (H:=Sample.host) initialState (Some " tok ")
      (LookupMessage "10.0.*" None) in
  let tries := attempts (H:=Sample.host) "tok" ["10.0.*"] [Sample.subA; Sample.subB] (Some " tok ") in
  let results := lastResults outcome.1.1 in
  tries.*1 = [Sample.subA; Sample.subB]
  ∧ results = concat (rowsOf ∘ snd <$> tries)
  ∧ outcome.2 =
      PostMessage (SetLoading true) ::
      PostMessage (InitSubscriptions [Sample.subA; Sample.subB]) ::
      (tries ≫= attemptEvents) ++
      [PostMessage (DisplayResults ["10.0.*"] results (collectColumns results));
       PostMessage (ShowInfo (summaryText results ["10.0.*"]));
       PostMessage (SetLoading false)]
  ∧ filter (fun e => isSettledFor "sub-a" e = true) outcome.2
    = [PostMessage (SubscriptionStatus "sub-a" (Done 3))]
  ∧ filter (fun e => isSettledFor "sub-b" e = true) outcome.2
    = [PostMessage (SubscriptionStatus "sub-b" (Error "network error"))].
Proof.
  destruct (lookup_failure_isolated (H:=Sample.host) initialState (Some " tok ") "10.0.*" None
              "tok" [Sample.subA; Sample.subB]
              {| cachedSubscriptions := Some [Sample.subA; Sample.subB];
                 cachedToken := Some "tok" |}
              (Some " tok ")) as (Htries & Hrows & Heffects & Hsettled);
    [reflexivity|reflexivity|reflexivity|discriminate|].
  assert (NoDup (id <$> [Sample.subA; Sample.subB])) as Hnd
    by (apply (bool_decide_unpack _); vm_compute; exact I).
  split_and!; [exact Htries|exact Hrows|exact Heffects|..].
  - apply (Hsettled (or_intror Hnd) Sample.subA (Returned Sample.rowsA)). left.
  - apply (Hsettled (or_intror Hnd) Sample.subB (Threw (ThrownError "network error"))).
    right. left.
Defined.

(** The scenario of the specification: subscription A returns three rows,
    subscription B fails on the network. *)
Example lookup_failure_isolated_sample :
  let outcome :=
    onDidReceiveMessage (H:=Sample.host) initialState (Some " tok ")
      (LookupMessage "10.0.*" None) in
  lastResults outcome.1.1 = Sample.rowsA
  ∧ filter (fun e => isSubscriptionStatus e = true) outcome.2 =
      [PostMessage (SubscriptionStatus "sub-a" Running);
       PostMessage (SubscriptionStatus "sub-a" (Done 3));
       PostMessage (SubscriptionStatus "sub-b" Running);
       PostMessage (SubscriptionStatus "sub-b" (Error "network error"))].
Proof. split; reflexivity. Qed.

(** ** Export *)

(** C9. With no rows retained from a lookup, the handler of an [exportCsv]
    request completes, changes nothing, and only notifies the user: one
    warning of the host and one informational message to the webview; it
    does not call the exporter, so nothing is written.  The initial state
    of a panel is such a state. *)
Theorem export_without_results `{Host World} (st : State) (w : World) :
  lastResults st = [] →
  onDidReceiveMessage st w ExportMessage =
    (st, w,
     [ShowWarningMessage "No results to export yet. Run a search first.";
      PostMessage (ShowInfo "Run a search to export results.")])
  ∧ filter (fun e => isExportCsv e = true) (onDidReceiveMessage st w ExportMessage).2 = []
  ∧ lastResults initialState = [].
Proof.
  intros Hempty. unfold onDidReceiveMessage, exportResults. rewrite Hempty. done.
Qed.

Lemma export_without_results_witness :
  onDidReceiveMessage (H:=Sample.host) initialState (Some "tok") ExportMessage =
    (initialState, Some "tok",
     [ShowWarningMessage "No results to export yet. Run a search first.";
      PostMessage (ShowInfo "Run a search to export results.")])
  ∧ filter (fun e => isExportCsv e = true)
      (onDidReceiveMessage (H:=Sample.host) initialState (Some "tok") ExportMessage).2 = []
  ∧ lastResults initialState = [].
Proof.
  apply (export_without_results (H:=Sample.host) initialState (Some "tok")). reflexivity.
Defined.

Section failed_lookup.

Context `{Host World}.

Lemma resolveSubscriptions_Threw (c : Cache) (w : World) token requested err c' w' :
  listSubscriptions c w token = (Threw err, c', w') →
  resolveSubscriptions c w token requested = (Threw err, c', w').
Proof. intros Hl. unfold resolveSubscriptions. by rewrite Hl. Qed.

End failed_lookup.

(** C10. A lookup that fails before any query is attempted (blank token,
    failure of the fetch of the catalog, empty resolved list) posts no
    status event and leaves the retained rows as they were: the handler
    of a later [exportCsv] request does what it would have done before the
    lookup, which, when rows were retained, is the export of those rows. *)
Theorem failed_lookup_keeps_results `{Host World} (st : State) (w : World) (cidr : string)
    (subscriptions : option (list string)) :
  let token := trim (default "" (configToken w)) in
  let requested := parseRequested subscriptions in
  (truthy token = false
   ∨ (truthy token = true
      ∧ ∃ err c' w', listSubscriptions (cache st) w token = (Threw err, c', w'))
   ∨ (truthy token = true
      ∧ ∃ c' w', resolveSubscriptions (cache st) w token requested = (Returned [], c', w'))) →
  let outcome := onDidReceiveMessage st w (LookupMessage cidr subscriptions) in
  lastResults outcome.1.1 = lastResults st
  ∧ filter (fun e => isSubscriptionStatus e = true) outcome.2 = []
  ∧ (∀ w2, (onDidReceiveMessage outcome.1.1 w2 ExportMessage).2
           = (onDidReceiveMessage st w2 ExportMessage).2)
  ∧ (lastResults st ≠ [] →
     ∀ w2, (onDidReceiveMessage outcome.1.1 w2 ExportMessage).2 =
       [ExportCsv "microsoft-azure-cidr-analyzer" "azure-cidr-results"
          (csvBody (lastResults st) (collectColumns (lastResults st)))
          (csvHeader (collectColumns (lastResults st)) +:+ LF)]).
Proof.
  intros token requested Hfail outcome.
  assert (lastResults outcome.1.1 = lastResults st
          ∧ filter (fun e => isSubscriptionStatus e = true) outcome.2 = []) as [Hkeep Hnone].
  { subst outcome. unfold onDidReceiveMessage, lookupCidr, lookupTry.
    fold token requested.
    destruct Hfail as [Hblank|[[Htok (err & c' & w' & Hlist)]|[Htok (c' & w' & Hres)]]].
    - rewrite Hblank. done.
    - rewrite Htok. cbn [negb].
      rewrite (resolveSubscriptions_Threw _ _ _ _ _ _ _ Hlist). done.
    - rewrite Htok. cbn [negb]. rewrite Hres. done. }
  assert (∀ w2, (onDidReceiveMessage outcome.1.1 w2 ExportMessage).2
                = (onDidReceiveMessage st w2 ExportMessage).2) as Hsame.
  { intros w2. unfold onDidReceiveMessage, exportResults. cbn [snd]. by rewrite Hkeep. }
  split_and!; [done..|].
  intros Hrows w2. rewrite Hsame. unfold onDidReceiveMessage, exportResults. cbn [snd].
  by destruct (lastResults st).
Qed.

Lemma failed_lookup_keeps_results_witness :
  let st := {| lastResults := Sample.rowsA; cache := cache initialState |} in
  let outcome :=
    onDidReceiveMessage (H:=Sample.host) st (Some "   ") (LookupMessage "10.0.*" None) in
  lastResults outcome.1.1 = Sample.rowsA
  ∧ filter (fun e => isSubscriptionStatus e = true) outcome.2 = []
  ∧ (onDidReceiveMessage (H:=Sample.host) outcome.1.1 (Some "tok") ExportMessage).2
    = (onDidReceiveMessage (H:=Sample.host) st (Some "tok") ExportMessage).2
  ∧ (onDidReceiveMessage (H:=Sample.host) outcome.1.1 (Some "tok") ExportMessage).2 =
      [ExportCsv "microsoft-azure-cidr-analyzer" "azure-cidr-results"
         (csvBody Sample.rowsA (collectColumns Sample.rowsA))
         (csvHeader (collectColumns Sample.rowsA) +:+ LF)].
Proof.
  intros st outcome.
  destruct (failed_lookup_keeps_results (H:=Sample.host) st (Some "   ") "10.0.*" None)
    as (Hkeep & Hnone & Hsame & Hexport); [left; reflexivity|].
  split_and!; [exact Hkeep|exact Hnone|exact (Hsame (Some "tok"))|].
  apply Hexport. discriminate.
Defined.

(** The same with a catalog that cannot be fetched: the error is reported,
    no subscription is queried, the rows stay. *)
Example failed_lookup_catalog_sample :
  let st := {| lastResults := Sample.rowsA; cache := cache initialState |} in
  onDidReceiveMessage (H:=Sample.hostDown) st (Some "tok") (LookupMessage "10.0.*" None)
  = (st, Some "tok",
     [PostMessage (SetLoading true);
      ShowErrorMessage "Azure CIDR Analyzer error: Unable to list subscriptions: 401";
      PostMessage (ShowError "Unable to list subscriptions: 401");
      PostMessage (SetLoading false)]).
Proof. reflexivity. Qed.

(** * Further properties of the module *)

(** ** Query builder *)

Section query_builder_more.

Lemma lowerChar_idemp c : lowerChar (lowerChar c) = lowerChar c.
Proof. by destruct c as [[] [] [] [] [] [] [] []]. Qed.

Lemma toLowerCase_idemp s : toLowerCase (toLowerCase s) = toLowerCase s.
Proof. induction s as [|c s IH]; [done|]. simpl. by rewrite lowerChar_idemp, IH. Qed.

Lemma lowerSet_toLowerCase cidrs : lowerSet (toLowerCase <$> cidrs) = lowerSet cidrs.
Proof.
  unfold lowerSet. rewrite <- list_fmap_compose. do 2 f_equal.
  apply list_fmap_ext. intros _ c _. apply toLowerCase_idemp.
Qed.

Lemma lowerSet_snoc_absorbed cidrs c :
  c = "" ∨ toLowerCase c ∈ toLowerCase <$> cidrs →
  lowerSet (cidrs ++ [c]) = lowerSet cidrs.
Proof.
  intros Hc. unfold lowerSet. rewrite fmap_app, filter_app. cbn [fmap list_fmap].
  destruct (decide (c = "")) as [->|Hne].
  { rewrite filter_cons_False by (cbn; congruence). by rewrite filter_nil, app_nil_r. }
  destruct Hc as [?|Hin]; [done|].
  assert (truthy (toLowerCase c) = true) as Ht
    by (rewrite truthy_toLowerCase; by apply truthy_true).
  rewrite filter_cons_True by done. rewrite filter_nil, Set_from_snoc.
  unfold Set_add. rewrite bool_decide_eq_true_2; [done|].
  apply Set_from_elem, list_elem_of_filter. by split.
Qed.

Lemma query_of_lowerSet cidrs1 cidrs2 :
  lowerSet cidrs1 = lowerSet cidrs2 →
  buildResourceGraphQuery cidrs1 = buildResourceGraphQuery cidrs2.
Proof.
  intros Heq. unfold buildResourceGraphQuery, filterClause, clauses.
  unfold exactMatches, wildcardMatches. by rewrite Heq.
Qed.

Lemma clauses_nil cidrs : clauses cidrs = [] → lowerSet cidrs = [].
Proof.
  unfold clauses, exactMatches, wildcardMatches.
  destruct (lowerSet cidrs) as [|t l]; [done|].
  destruct (includes "*" t) eqn:Hstar.
  - rewrite (filter_cons_True (λ c, includes "*" c = true)) by done.
    intros [_ H]%app_eq_nil. done.
  - rewrite (filter_cons_True (λ c, includes "*" c = false)) by done.
    intros [H _]%app_eq_nil. done.
Qed.

Lemma str_app_eq_nil (s t : string) : s +:+ t = t → s = "".
Proof.
  intros Heq. apply (f_equal String.length) in Heq. rewrite str_length_app in Heq.
  destruct s; [done|]. simpl in Heq. lia.
Qed.

End query_builder_more.

(** X1. The query is the unfiltered one exactly when no filter of the list is
    non-empty; any non-empty filter, exact or wildcard, puts a filter clause
    in the text. *)
Theorem unfiltered_iff_no_filter (cidrs : list string) :
  (filterClause cidrs = "" ↔ ∀ c, c ∈ cidrs → c = "")
  ∧ (buildResourceGraphQuery cidrs = unfilteredQuery ↔ ∀ c, c ∈ cidrs → c = "").
Proof.
  assert (filterClause cidrs = "" ↔ ∀ c, c ∈ cidrs → c = "") as Hclause.
  { split.
    - intros Hempty c Hc. destruct (decide (c = "")) as [|Hne]; [done|].
      unfold filterClause in Hempty.
      destruct (clauses cidrs) as [|cl cls] eqn:Hcl; [|done].
      apply clauses_nil in Hcl.
      assert (toLowerCase c ∈ lowerSet cidrs) as Hin.
      { apply lowerSet_elem. split; [|eauto].
        apply truthy_true. rewrite truthy_toLowerCase. by apply truthy_true. }
      rewrite Hcl in Hin. by apply elem_of_nil in Hin.
    - intros Hall. unfold filterClause, clauses, exactMatches, wildcardMatches.
      by rewrite (lowerSet_all_empty _ Hall). }
  split; [done|]. rewrite <- Hclause. unfold buildResourceGraphQuery. split.
  - change unfilteredQuery with (queryHead +:+ queryTail).
    intros Heq%(inj (String.app queryHead)). by apply str_app_eq_nil in Heq.
  - by intros ->.
Qed.

(** X2. The query does not depend on the letter case of the filters, and a
    filter added at the end of the list changes nothing when it is empty or
    differs from an earlier one in letter case only. *)
Theorem query_ignores_case_and_repeats (cidrs : list string) (c : string) :
  buildResourceGraphQuery (toLowerCase <$> cidrs) = buildResourceGraphQuery cidrs
  ∧ (c = "" ∨ toLowerCase c ∈ toLowerCase <$> cidrs →
     buildResourceGraphQuery (cidrs ++ [c]) = buildResourceGraphQuery cidrs).
Proof.
  split.
  - apply query_of_lowerSet, lowerSet_toLowerCase.
  - intros Hc. by apply query_of_lowerSet, lowerSet_snoc_absorbed.
Qed.

Lemma query_ignores_case_and_repeats_witness :
  buildResourceGraphQuery (toLowerCase <$> ["FD00::/8"; "10.1.*"])
  = buildResourceGraphQuery ["FD00::/8"; "10.1.*"]
  ∧ buildResourceGraphQuery (["FD00::/8"; "10.1.*"] ++ ["fd00::/8"])
    = buildResourceGraphQuery ["FD00::/8"; "10.1.*"].
Proof.
  destruct (query_ignores_case_and_repeats ["FD00::/8"; "10.1.*"] "fd00::/8") as [Hcase Hadd].
  split; [exact Hcase|]. apply Hadd. right. left.
Defined.

(** X3. Every distinct lower-cased non-empty filter is used once: in the
    membership list when it has no star, as a pattern when it has one. *)
Theorem filters_partitioned (cidrs : list string) :
  exactMatches cidrs ++ wildcardMatches cidrs ≡ₚ lowerSet cidrs
  ∧ NoDup (exactMatches cidrs ++ wildcardMatches cidrs)
  ∧ (∀ t, t ∈ exactMatches cidrs ↔ t ∈ lowerSet cidrs ∧ includes "*" t = false)
  ∧ (∀ t, t ∈ wildcardMatches cidrs ↔ t ∈ lowerSet cidrs ∧ includes "*" t = true).
Proof.
  assert (exactMatches cidrs ++ wildcardMatches cidrs ≡ₚ lowerSet cidrs) as Hperm.
  { unfold exactMatches, wildcardMatches.
    rewrite <- (filter_app_complement (λ c, includes "*" c = false) (lowerSet cidrs)) at 3.
    f_equiv. apply reflexive_eq, list_filter_iff. intros t.
    by destruct (includes "*" t). }
  split_and!; [done| | |].
  - rewrite Hperm. apply lowerSet_NoDup.
  - intros t. unfold exactMatches. rewrite list_elem_of_filter. tauto.
  - intros t. unfold wildcardMatches. rewrite list_elem_of_filter. tauto.
Qed.

(** ** The filters of a lookup message *)

Section parse_cidrs.

Lemma includes_snoc c s d : includes c (s +:+ String d "") = includes c s || Ascii.eqb d c.
Proof.
  induction s as [|e s IH].
  - simpl. by destruct (Ascii.eqb d c).
  - rewrite str_app_cons. simpl. by destruct (Ascii.eqb e c).
Qed.

Lemma split_go_no_separator (p : ascii → bool) c s : ∀ cur,
  p c = true → includes c cur = false →
  Forall (λ piece, includes c piece = false) (split_go p cur s).
Proof.
  intros cur Hpc. revert cur. induction s as [|d s IH]; intros cur Hcur; cbn [split_go].
  - by apply Forall_singleton.
  - destruct (p d) eqn:Hpd.
    + apply Forall_cons. split; [done|]. by apply IH.
    + apply IH. rewrite includes_snoc, Hcur. cbn [orb].
      apply Ascii.eqb_neq. intros ->. congruence.
Qed.

Lemma allChars_snoc p s d : allChars p (s +:+ String d "") = allChars p s && p d.
Proof.
  induction s as [|e s IH].
  - simpl. by rewrite andb_true_r.
  - rewrite str_app_cons. simpl. by rewrite IH, andb_assoc.
Qed.

Lemma split_go_blank (p : ascii → bool) s : ∀ cur,
  allChars (λ c, Ascii.is_space c || p c) s = true →
  allChars Ascii.is_space cur = true →
  Forall (λ piece, allChars Ascii.is_space piece = true) (split_go p cur s).
Proof.
  induction s as [|d s IH]; intros cur Hs Hcur; cbn [split_go].
  - by apply Forall_singleton.
  - cbn [allChars] in Hs. apply andb_true_iff in Hs as [Hd Hs].
    destruct (p d) eqn:Hpd.
    + apply Forall_cons. split; [done|]. by apply IH.
    + apply IH; [done|]. rewrite allChars_snoc, Hcur.
      rewrite orb_false_r in Hd. by rewrite Hd.
Qed.

Lemma trimStart_blank s : allChars Ascii.is_space s = true → trimStart s = "".
Proof.
  induction s as [|c s IH]; [done|]. cbn [allChars trimStart].
  intros [Hc Hs]%andb_true_iff. rewrite Hc. by apply IH.
Qed.

Lemma includes_trimStart c s : includes c s = false → includes c (trimStart s) = false.
Proof.
  induction s as [|d s IH]; [done|]. cbn [includes trimStart].
  destruct (Ascii.eqb d c) eqn:Hd; [done|]. intros Hs.
  destruct (Ascii.is_space d); [by apply IH|]. cbn [includes]. by rewrite Hd.
Qed.

Lemma includes_trimEnd c s : includes c s = false → includes c (trimEnd s) = false.
Proof.
  induction s as [|d s IH]; [done|]. cbn [includes trimEnd].
  destruct (Ascii.eqb d c) eqn:Hd; [done|]. intros Hs. specialize (IH Hs).
  destruct (trimEnd s) as [|e t].
  - destruct (Ascii.is_space d); [done|]. cbn [includes]. by rewrite Hd.
  - cbn [includes]. by rewrite Hd.
Qed.

Lemma trimEnd_idemp s : trimEnd (trimEnd s) = trimEnd s.
Proof.
  induction s as [|c s IH]; [done|]. cbn [trimEnd].
  destruct (trimEnd s) as [|e t] eqn:Ht.
  - destruct (Ascii.is_space c) eqn:Hc; [done|]. cbn [trimEnd]. by rewrite Hc.
  - change (trimEnd (String c (String e t))) with
      (match trimEnd (String e t) with
       | EmptyString => if Ascii.is_space c then EmptyString else String c EmptyString
       | t' => String c t'
       end).
    by rewrite IH.
Qed.

Lemma trimStart_startsClean s : startsClean (trimStart s).
Proof.
  induction s as [|c s IH]; [done|]. cbn [trimStart].
  destruct (Ascii.is_space c) eqn:Hc; [done|]. done.
Qed.

Lemma trimStart_id s : startsClean s → trimStart s = s.
Proof. destruct s as [|c s]; [done|]. cbn [trimStart startsClean]. by intros ->. Qed.

Lemma trimEnd_startsClean s : startsClean s → startsClean (trimEnd s).
Proof.
  destruct s as [|c s]; [done|]. cbn [trimEnd startsClean]. intros Hc.
  destruct (trimEnd s); [by rewrite Hc|done].
Qed.

Lemma trim_idemp s : trim (trim s) = trim s.
Proof.
  unfold trim. rewrite (trimStart_id (trimEnd _)).
  - apply trimEnd_idemp.
  - apply trimEnd_startsClean, trimStart_startsClean.
Qed.

Lemma includes_trim c s : includes c s = false → includes c (trim s) = false.
Proof. intros Hs. by apply includes_trimEnd, includes_trimStart. Qed.

End parse_cidrs.

(** X4. Each filter that [lookupCidr] reads from the text of the message is
    non-empty, holds no comma and no line feed, and has no white space at
    either end. *)
Theorem parseCidrs_clean (cidr : string) (f : string) :
  f ∈ parseCidrs cidr →
  f ≠ "" ∧ trim f = f ∧ includes "," f = false ∧ includes "010" f = false.
Proof.
  unfold parseCidrs. rewrite list_elem_of_filter, list_elem_of_fmap.
  intros [Hne (piece & -> & Hpiece)]. split_and!.
  - by apply truthy_true.
  - apply trim_idemp.
  - apply includes_trim.
    pose proof (split_go_no_separator isSeparator "," cidr "" eq_refl eq_refl) as Hall.
    rewrite Forall_forall in Hall. by apply Hall.
  - apply includes_trim.
    pose proof (split_go_no_separator isSeparator "010" cidr "" eq_refl eq_refl) as Hall.
    rewrite Forall_forall in Hall. by apply Hall.
Qed.

Lemma parseCidrs_clean_witness :
  "10.1.*" ≠ "" ∧ trim "10.1.*" = "10.1.*"
  ∧ includes "," "10.1.*" = false ∧ includes "010" "10.1.*" = false.
Proof.
  apply (parseCidrs_clean (" 10.0.0.0/24, 10.1.*" +:+ LF +:+ " ,, FD00::/8 ") "10.1.*").
  right. left.
Defined.

(** X5. A text made of white space, commas and line feeds only gives no
    filter at all, and the query of the lookup is then the unfiltered one:
    a blank field lists every prefix. *)
Theorem parseCidrs_blank (cidr : string) :
  allChars (λ c, Ascii.is_space c || isSeparator c) cidr = true →
  parseCidrs cidr = []
  ∧ buildResourceGraphQuery (parseCidrs cidr) = unfilteredQuery.
Proof.
  intros Hblank.
  assert (parseCidrs cidr = []) as ->; [|by split].
  unfold parseCidrs. apply filter_none. intros f (piece & -> & Hpiece)%list_elem_of_fmap.
  pose proof (split_go_blank isSeparator cidr "" Hblank eq_refl) as Hall.
  rewrite Forall_forall in Hall. specialize (Hall piece Hpiece).
  unfold trim. by rewrite (trimStart_blank _ Hall).
Qed.

Lemma parseCidrs_blank_witness :
  parseCidrs ("  , " +:+ LF +:+ " ") = []
  ∧ buildResourceGraphQuery (parseCidrs ("  , " +:+ LF +:+ " ")) = unfilteredQuery.
Proof. apply (parseCidrs_blank ("  , " +:+ LF +:+ " ")). reflexivity. Defined.

(** ** The catalog and its cache *)

Section catalog.

Context `{Host World}.

(** The two ways [listSubscriptions] returns a catalog. *)
Lemma listSubscriptions_Returned (c : Cache) (w : World) token all c' w' :
  listSubscriptions c w token = (Returned all, c', w') →
  (cacheHit c token = Some all ∧ c' = c ∧ w' = w)
  ∨ (cacheHit c token = None
     ∧ (∃ entries, fetchSubscriptions w token = (HttpOk entries, w')
                   ∧ all = filter (λ entry, truthy (id entry) = true) entries)
     ∧ all ≠ []
     ∧ c' = {| cachedSubscriptions := Some all; cachedToken := Some token |}).
Proof.
  unfold listSubscriptions. destruct (cacheHit c token) as [cached|] eqn:Hhit.
  - intros [= <- <- <-]. by left.
  - destruct (fetchSubscriptions w token) as [[err|detail|entries] w1]; [done..|].
    destruct (filter _ entries) as [|sub subs] eqn:Hsubs; [done|].
    intros [= <- <- <-]. right. split_and!; [done|by exists entries|done|done].
Qed.

Lemma listSubscriptions_Threw (c : Cache) (w : World) token err c' w' :
  listSubscriptions c w token = (Threw err, c', w') →
  cacheHit c token = None ∧ c' = c.
Proof.
  unfold listSubscriptions. destruct (cacheHit c token) as [cached|] eqn:Hhit; [done|].
  destruct (fetchSubscriptions w token) as [[err1|detail|entries] w1].
  - by intros [= _ <- _].
  - by intros [= _ <- _].
  - destruct (filter _ entries) as [|sub subs]; [|done]. by intros [= _ <- _].
Qed.

Lemma cacheHit_Some (c : Cache) token all :
  cacheHit c token = Some all →
  cachedSubscriptions c = Some all ∧ cachedToken c = Some token ∧ all ≠ [].
Proof.
  unfold cacheHit. destruct (cachedSubscriptions c) as [[|sub subs]|]; [done| |done].
  case_bool_decide; [|done]. by intros [= <-].
Qed.

Lemma cacheHit_fresh token all :
  all ≠ [] →
  cacheHit {| cachedSubscriptions := Some all; cachedToken := Some token |} token = Some all.
Proof.
  intros Hne. unfold cacheHit. cbn. destruct all as [|sub subs]; [done|].
  by rewrite bool_decide_eq_true_2.
Qed.

Lemma cacheHit_other (c : Cache) token token2 :
  cachedToken c = Some token → token2 ≠ token → cacheHit c token2 = None.
Proof.
  intros Htok Hne. unfold cacheHit. destruct (cachedSubscriptions c) as [[|sub subs]|]; [done| |done].
  rewrite bool_decide_eq_false_2; [done|]. rewrite Htok. congruence.
Qed.

Lemma listSubscriptions_cacheOk (c : Cache) (w : World) token outcome c' w' :
  cacheOk c →
  listSubscriptions c w token = (outcome, c', w') →
  cacheOk c' ∧ ∀ all, outcome = Returned all → Forall (λ sub, id sub ≠ "") all.
Proof.
  intros Hok Hlist. destruct outcome as [all|err].
  - apply listSubscriptions_Returned in Hlist
      as [(Hhit & -> & _)|(_ & (entries & _ & Hall) & _ & ->)].
    + split; [done|]. intros ? [= <-]. apply cacheHit_Some in Hhit as (Hc & _ & _).
      by apply Hok.
    + assert (Forall (λ sub, id sub ≠ "") all) as Hids.
      { rewrite Hall. apply Forall_forall. intros sub [Hsub _]%list_elem_of_filter.
        by apply truthy_true. }
      split; [|by intros ? [= <-]]. intros subs [= <-]. done.
  - apply listSubscriptions_Threw in Hlist as [_ ->]. by split.
Qed.

Lemma NoDup_fmap_eq {A B} (f : A → B) (l : list A) x y :
  NoDup (f <$> l) → x ∈ l → y ∈ l → f x = f y → x = y.
Proof.
  induction l as [|a l IH]; [by intros _ []%elem_of_nil|].
  rewrite fmap_cons, NoDup_cons. intros [Hfresh Hnd].
  intros [->|Hx]%elem_of_cons [->|Hy]%elem_of_cons Heq; [done|..|by apply IH].
  - destruct Hfresh. rewrite Heq. by apply list_elem_of_fmap_2.
  - destruct Hfresh. rewrite <- Heq. by apply list_elem_of_fmap_2.
Qed.

Lemma byIdMap_lookup (all : list SubscriptionInfo) sub :
  NoDup ((toLowerCase ∘ id) <$> all) → sub ∈ all →
  byIdMap all !! toLowerCase (id sub) = Some sub.
Proof.
  intros Hnd Hsub. destruct (byIdMap all !! toLowerCase (id sub)) as [m|] eqn:Hm.
  - apply byIdMap_Some in Hm as [Hin Hkey]. f_equal.
    by apply (NoDup_fmap_eq (toLowerCase ∘ id) all).
  - by destruct (byIdMap_None _ _ Hm sub Hsub).
Qed.

Lemma resolveLoop_catalog (all : list SubscriptionInfo) :
  NoDup ((toLowerCase ∘ id) <$> all) →
  ∀ rest arest apre (seen : gset string),
    all = apre ++ arest →
    toLowerCase <$> rest = (toLowerCase ∘ id) <$> arest →
    (∀ k, k ∈ seen ↔ k ∈ (toLowerCase ∘ id) <$> apre) →
    resolveLoop (byIdMap all) rest seen apre = all.
Proof.
  intros Hnd. induction rest as [|raw rest IH]; intros arest apre seen Hall Hkeys Hseen.
  - destruct arest; [|done]. by rewrite app_nil_r in Hall.
  - destruct arest as [|a arest]; [done|].
    rewrite !fmap_cons in Hkeys. injection Hkeys as Hraw Hkeys.
    cbn [resolveLoop]. rewrite Hraw.
    assert (a ∈ all) as Ha by (rewrite Hall, elem_of_app; right; left).
    rewrite bool_decide_eq_false_2.
    + change (toLowerCase (id a)) with ((toLowerCase ∘ id) a) at 1.
      cbn [compose]. rewrite (byIdMap_lookup all a Hnd Ha).
      apply (IH arest); [by rewrite <- (assoc_L (++))|done|].
      intros k. rewrite fmap_app, elem_of_app, elem_of_union, elem_of_singleton.
      rewrite Hseen. cbn. rewrite list_elem_of_singleton. done.
    + rewrite Hseen. rewrite Hall, fmap_app, fmap_cons in Hnd.
      apply NoDup_app in Hnd as (_ & Hdisj & _). intros Hin.
      apply (Hdisj _ Hin). left.
Qed.

End catalog.

(** X6. Once [listSubscriptions] has returned a catalog for a token, a later
    call with the same token returns that catalog from the cache, whatever
    the world, and leaves the world as it is (no request); the cache is kept
    for that token only. *)
Theorem catalog_cached `{Host World} (c : Cache) (w : World) (token : string)
    (all : list SubscriptionInfo) (c' : Cache) (w' : World) :
  listSubscriptions c w token = (Returned all, c', w') →
  (∀ w2, listSubscriptions c' w2 token = (Returned all, c', w2))
  ∧ (∀ token2, token2 ≠ token → cacheHit c' token2 = None).
Proof.
  intros Hlist.
  assert (cacheHit c' token = Some all ∧ cachedToken c' = Some token) as [Hhit Htok].
  { apply listSubscriptions_Returned in Hlist
      as [(Hhit & -> & _)|(_ & _ & Hne & ->)].
    - split; [done|]. by apply cacheHit_Some in Hhit as (_ & ? & _).
    - split; [by apply cacheHit_fresh|done]. }
  split.
  - intros w2. unfold listSubscriptions. by rewrite Hhit.
  - intros token2 Hne. by apply (cacheHit_other c' token).
Qed.

Lemma catalog_cached_witness :
  listSubscriptions (H:=Sample.host)
    {| cachedSubscriptions := Some [Sample.subA; Sample.subB]; cachedToken := Some "tok" |}
    None "tok"
  = (Returned [Sample.subA; Sample.subB],
     {| cachedSubscriptions := Some [Sample.subA; Sample.subB]; cachedToken := Some "tok" |},
     None)
  ∧ cacheHit
      {| cachedSubscriptions := Some [Sample.subA; Sample.subB]; cachedToken := Some "tok" |}
      "other" = None.
Proof.
  destruct (catalog_cached (H:=Sample.host) (cache initialState) (Some "tok") "tok"
              [Sample.subA; Sample.subB]
              {| cachedSubscriptions := Some [Sample.subA; Sample.subB];
                 cachedToken := Some "tok" |}
              (Some "tok")) as [Hsame Hother]; [reflexivity|].
  split; [exact (Hsame None)|]. apply Hother. discriminate.
Defined.

(** X7. A call of [listSubscriptions] that throws was a miss of the cache and
    leaves the cache as it was: a failure neither stores nor drops a catalog. *)
Theorem catalog_failure_keeps_cache `{Host World} (c : Cache) (w : World)
    (token : string) (err : Thrown) (c' : Cache) (w' : World) :
  listSubscriptions c w token = (Threw err, c', w') →
  c' = c ∧ cacheHit c token = None.
Proof. intros [? ?]%listSubscriptions_Threw. done. Qed.

Lemma catalog_failure_keeps_cache_witness :
  cache initialState = cache initialState ∧ cacheHit (cache initialState) "tok" = None.
Proof.
  apply (catalog_failure_keeps_cache (H:=Sample.hostDown) (cache initialState) (Some "tok")
           "tok" (ThrownError "Unable to list subscriptions: 401")
           (cache initialState) (Some "tok")).
  reflexivity.
Defined.

(** X9. When the ids of the catalog are distinct up to letter case, a request
    that names every id of the catalog, in the order of the catalog and in
    any letter case, resolves to the catalog itself, entries as stored. *)
Theorem resolve_whole_catalog `{Host World} (c : Cache) (w : World) (token : string)
    (requested : list string) (all : list SubscriptionInfo) (c' : Cache) (w' : World) :
  listSubscriptions c w token = (Returned all, c', w') →
  NoDup ((toLowerCase ∘ id) <$> all) →
  toLowerCase <$> requested = (toLowerCase ∘ id) <$> all →
  resolveSubscriptions c w token requested = (Returned all, c', w').
Proof.
  intros Hlist Hnd Hkeys. unfold resolveSubscriptions. rewrite Hlist.
  destruct requested as [|raw rest]; [done|].
  rewrite (resolveLoop_catalog all Hnd (raw :: rest) all [] ∅); [done..|].
  intros k. by rewrite fmap_nil, elem_of_empty, elem_of_nil.
Qed.

Lemma resolve_whole_catalog_witness :
  resolveSubscriptions (H:=Sample.host) (cache initialState) (Some "tok") "tok"
    ["SUB-A"; "Sub-B"]
  = (Returned [Sample.subA; Sample.subB],
     {| cachedSubscriptions := Some [Sample.subA; Sample.subB]; cachedToken := Some "tok" |},
     Some "tok").
Proof.
  apply (resolve_whole_catalog (H:=Sample.host)).
  - reflexivity.
  - apply (bool_decide_unpack _). vm_compute. exact I.
  - reflexivity.
Defined.

(** ** The handler of a lookup *)

Section lookup_cases.

Context `{Host World}.

Lemma resolveSubscriptions_inv (c : Cache) (w : World) token requested outcome c' w' :
  resolveSubscriptions c w token requested = (outcome, c', w') →
  (∃ err, outcome = Threw err ∧ listSubscriptions c w token = (Threw err, c', w'))
  ∨ (∃ all, listSubscriptions c w token = (Returned all, c', w')
            ∧ outcome = Returned (match requested with
                                  | [] => all
                                  | _ => resolveLoop (byIdMap all) requested ∅ []
                                  end)).
Proof.
  unfold resolveSubscriptions.
  destruct (listSubscriptions c w token) as [[[all|err] c1] w1].
  - intros Heq. right. exists all. destruct requested; by injection Heq as <- <- <-.
  - intros [= <- <- <-]. left. by exists err.
Qed.

(** The three ways a lookup goes: no token, no resolution, or the loop. *)
Lemma lookupCidr_cases (st : State) (w : World) cidr subscriptions :
  let token := trim (default "" (configToken w)) in
  let cidrs := parseCidrs cidr in
  let requested := parseRequested subscriptions in
  let failure msg :=
    [PostMessage (SetLoading true);
     ShowErrorMessage ("Azure CIDR Analyzer error: " +:+ msg);
     PostMessage (ShowError msg);
     PostMessage (SetLoading false)] in
  (truthy token = false
   ∧ lookupCidr st w cidr subscriptions
     = (st, w,
        failure "Configure an Azure Resource Graph token in the Azure CIDR Analyzer settings first."))
  ∨ (truthy token = true
     ∧ ∃ err c' w',
         resolveSubscriptions (cache st) w token requested = (Threw err, c', w')
         ∧ lookupCidr st w cidr subscriptions
           = ({| lastResults := lastResults st; cache := c' |}, w', failure (messageOf err)))
  ∨ (truthy token = true
     ∧ ∃ subs c' w',
         resolveSubscriptions (cache st) w token requested = (Returned subs, c', w')
         ∧ subs ≠ []
         ∧ let tries := attempts token cidrs subs w' in
           let results := concat (rowsOf ∘ snd <$> tries) in
           lookupCidr st w cidr subscriptions
           = ({| lastResults := results; cache := c' |},
              (queryEach token cidrs subs w' [] []).1.1,
              PostMessage (SetLoading true) :: PostMessage (InitSubscriptions subs) ::
              (tries ≫= attemptEvents) ++
              [PostMessage (DisplayResults cidrs results (collectColumns results));
               PostMessage (ShowInfo (summaryText results cidrs));
               PostMessage (SetLoading false)])).
Proof.
  intros token cidrs requested failure. unfold lookupCidr, lookupTry.
  fold token cidrs requested.
  destruct (truthy token) eqn:Htok; [|by left]. right. cbn [negb].
  destruct (resolveSubscriptions (cache st) w token requested) as [[[subs|err] c'] w'] eqn:Hres.
  - right. split; [done|]. exists subs, c', w'. split; [done|].
    pose proof (resolveSubscriptions_nonempty _ _ _ _ _ _ _ Hres) as Hne.
    split; [done|]. destruct subs as [|sub subs]; [done|].
    destruct (queryEach_attempts token cidrs (sub :: subs) w' [] []) as [Hrows Hposted].
    cbn [app] in Hrows, Hposted. cbn zeta.
    destruct (queryEach token cidrs (sub :: subs) w' [] []) as [[w2 results] posted].
    cbn [fst snd] in *. subst results posted.
    cbn [app]. by rewrite <- !(assoc_L (++)).
  - left. split; [done|]. by exists err, c', w'.
Qed.

Lemma attemptEvents_status (tries : list (SubscriptionInfo * Completion (list GraphResult))) :
  Forall (λ e, isSubscriptionStatus e = true) (tries ≫= attemptEvents).
Proof.
  induction tries as [|[sub outcome] tries IH]; [done|].
  cbn [mbind list_bind attemptEvents app]. by repeat (apply Forall_cons; split; [done|]).
Qed.

End lookup_cases.

(** [each_effect] checks a predicate that computes on a literal list of
    effects, effect by effect. *)
Ltac each_effect :=
  repeat (apply Forall_cons; split; [reflexivity|]); apply Forall_nil_2.

(** X10. Whatever the state, the world and the message of a lookup, the
    handler posts [setLoading true] first and [setLoading false] last, and
    no other [setLoading] in between: the loading indicator is released on
    success and on every failure. *)
Theorem lookup_loading_bracket `{Host World} (st : State) (w : World) (cidr : string)
    (subscriptions : option (list string)) :
  ∃ mid,
    (onDidReceiveMessage st w (LookupMessage cidr subscriptions)).2
    = PostMessage (SetLoading true) :: mid ++ [PostMessage (SetLoading false)]
    ∧ Forall (λ e, isSetLoading e = false) mid.
Proof.
  cbn [onDidReceiveMessage].
  destruct (lookupCidr_cases st w cidr subscriptions)
    as [[_ ->]|[[_ (err & c' & w' & _ & ->)]|[_ (subs & c' & w' & _ & _ & ->)]]].
  - eexists [_; _]. split; [reflexivity|]. each_effect.
  - eexists [_; _]. split; [reflexivity|]. each_effect.
  - lazymatch goal with
    | |- ∃ mid, (_, _, _ :: ?init :: ?events ++ [?display; ?info; _]).2 = _ ∧ _ =>
        exists (init :: events ++ [display; info])
    end.
    split.
    + cbn [snd]. by rewrite <- !app_comm_cons, <- (assoc_L (++)).
    + apply Forall_cons. split; [reflexivity|]. apply Forall_app. split.
      * eapply Forall_impl; [apply attemptEvents_status|].
        intros [[]| | |]; try discriminate; reflexivity.
      * each_effect.
Qed.

(** X11. Only an [exportCsv] message reaches the exporter: the handler of a
    lookup or of a request for the subscriptions never emits an export, and
    the handler of [exportCsv] touches neither the state nor the world. *)
Theorem only_export_exports `{Host World} (st : State) (w : World)
    (message : IncomingMessage) :
  (message ≠ ExportMessage →
   Forall (λ e, isExportCsv e = false) (onDidReceiveMessage st w message).2)
  ∧ (message = ExportMessage →
     (onDidReceiveMessage st w message).1 = (st, w)).
Proof.
  split; [|by intros ->].
  destruct message as [cidr subscriptions| |]; [|done|]; intros _.
  - cbn [onDidReceiveMessage].
    destruct (lookupCidr_cases st w cidr subscriptions)
      as [[_ ->]|[[_ (err & c' & w' & _ & ->)]|[_ (subs & c' & w' & _ & _ & ->)]]].
    + each_effect.
    + each_effect.
    + cbn [snd]. do 2 (apply Forall_cons; split; [reflexivity|]). apply Forall_app. split.
      * eapply Forall_impl; [apply attemptEvents_status|].
        intros [[]| | |]; try discriminate; reflexivity.
      * each_effect.
  - cbn [onDidReceiveMessage]. unfold sendAvailableSubscriptions.
    destruct (negb _); [each_effect|].
    destruct (listSubscriptions _ _ _) as [[[subs|err] c'] w']; each_effect.
Qed.

Lemma only_export_exports_witness :
  Forall (λ e, isExportCsv e = false)
    (onDidReceiveMessage (H:=Sample.host) initialState (Some "tok")
       (LookupMessage "10.0.*" None)).2
  ∧ (onDidReceiveMessage (H:=Sample.host) initialState (Some "tok") ExportMessage).1
    = (initialState, Some "tok").
Proof.
  split.
  - apply (only_export_exports (H:=Sample.host) initialState (Some "tok")
             (LookupMessage "10.0.*" None)). discriminate.
  - apply (only_export_exports (H:=Sample.host) initialState (Some "tok") ExportMessage).
    reflexivity.
Defined.

Section queried_ids.

Context `{Host World}.

Lemma parseRequested_nonempty subscriptions :
  Forall (λ raw, raw ≠ "") (parseRequested subscriptions).
Proof.
  destruct subscriptions as [ids|]; [|done]. cbn [parseRequested].
  apply Forall_forall. intros raw [Hraw _]%list_elem_of_filter. by apply truthy_true.
Qed.

Lemma resolveSubscriptions_ids (c : Cache) (w : World) token requested outcome c' w' :
  cacheOk c →
  Forall (λ raw, raw ≠ "") requested →
  resolveSubscriptions c w token requested = (outcome, c', w') →
  cacheOk c' ∧ ∀ subs, outcome = Returned subs → Forall (λ sub, id sub ≠ "") subs.
Proof.
  intros Hok Hreq [(err & -> & Hlist)|(all & Hlist & ->)]%resolveSubscriptions_inv.
  - apply (listSubscriptions_cacheOk _ _ _ _ _ _ Hok) in Hlist as [Hok' _]. by split.
  - apply (listSubscriptions_cacheOk _ _ _ _ _ _ Hok) in Hlist as [Hok' Hids].
    specialize (Hids all eq_refl). split; [done|]. intros subs [= <-].
    destruct requested as [|raw rest]; [done|].
    destruct (resolveLoop_spec all (raw :: rest) (raw :: rest) [] ∅ []) as [_ Hentries];
      [done|by intros k; rewrite fmap_nil, elem_of_empty, elem_of_nil|done|done|].
    eapply Forall_impl; [exact Hentries|]. intros entry [Hin|(_ & _ & pre & post & Hsplit & _)].
    + rewrite Forall_forall in Hids. by apply Hids.
    + rewrite Forall_forall in Hreq. apply Hreq. rewrite Hsplit, elem_of_app. right. left.
Qed.

End queried_ids.

(** X8. The entries of the cached catalog always have an id: this holds of
    the initial state and is kept by the handler of every message; and in
    such a state every subscription that a lookup announces, and then
    queries, has a non-empty id. *)
Theorem queried_ids_nonempty `{Host World} (st : State) (w : World)
    (message : IncomingMessage) :
  cacheOk (cache initialState)
  ∧ (cacheOk (cache st) →
     cacheOk (cache (onDidReceiveMessage st w message).1.1)
     ∧ Forall (λ sub, id sub ≠ "")
         (initSubscriptionsOf (onDidReceiveMessage st w message).2)).
Proof.
  split; [by intros subs [=]|]. intros Hok.
  destruct message as [cidr subscriptions| |]; cbn [onDidReceiveMessage].
  - destruct (lookupCidr_cases st w cidr subscriptions)
      as [[_ ->]|[[_ (err & c' & w' & Hres & ->)]|[_ (subs & c' & w' & Hres & _ & ->)]]].
    + by split.
    + apply (resolveSubscriptions_ids _ _ _ _ _ _ _ Hok (parseRequested_nonempty _))
        in Hres as [Hok' _].
      by split.
    + apply (resolveSubscriptions_ids _ _ _ _ _ _ _ Hok (parseRequested_nonempty _))
        in Hres as [Hok' Hids].
      split; [done|]. by apply Hids.
  - unfold exportResults. split; [done|]. by destruct (lastResults st).
  - unfold sendAvailableSubscriptions. destruct (negb _); [by split|].
    destruct (listSubscriptions _ _ _) as [[[subs|err] c'] w'] eqn:Hlist;
      apply (listSubscriptions_cacheOk _ _ _ _ _ _ Hok) in Hlist as [Hok' _]; by split.
Qed.

Lemma queried_ids_nonempty_witness :
  cacheOk (cache initialState)
  ∧ cacheOk (cache (onDidReceiveMessage (H:=Sample.host) initialState (Some "tok")
                      (LookupMessage "10.0.*" (Some ["x"; " "; "SUB-A"]))).1.1)
  ∧ Forall (λ sub, id sub ≠ "")
      (initSubscriptionsOf
         (onDidReceiveMessage (H:=Sample.host) initialState (Some "tok")
            (LookupMessage "10.0.*" (Some ["x"; " "; "SUB-A"]))).2).
Proof.
  destruct (queried_ids_nonempty (H:=Sample.host) initialState (Some "tok")
              (LookupMessage "10.0.*" (Some ["x"; " "; "SUB-A"]))) as [Hinit Hstep].
  split; [exact Hinit|]. apply Hstep. exact Hinit.
Defined.

(** ** Export after a lookup *)



(** ** The requests of the handlers *)

Section requests.

Context `(H : Host World).

Lemma recording_listSubscriptions (c : Cache) (w : World) (log : list Request) token :
  listSubscriptions (H:=recording H) c (w, log) token
  = let '(outcome, c', w') := listSubscriptions (H:=H) c w token in
    (outcome, c', (w', log ++ catalogRequests c token)).
Proof.
  unfold listSubscriptions, catalogRequests.
  destruct (cacheHit c token) as [cached|]; [by rewrite app_nil_r|].
  cbn [fetchSubscriptions recording fst snd].
  destruct (fetchSubscriptions w token) as [[err|detail|entries] w']; [done..|].
  by destruct (filter _ entries).
Qed.

Lemma recording_resolveSubscriptions (c : Cache) (w : World) (log : list Request)
    token requested :
  resolveSubscriptions (H:=recording H) c (w, log) token requested
  = let '(outcome, c', w') := resolveSubscriptions (H:=H) c w token requested in
    (outcome, c', (w', log ++ catalogRequests c token)).
Proof.
  unfold resolveSubscriptions. rewrite recording_listSubscriptions.
  destruct (listSubscriptions (H:=H) c w token) as [[[all|err] c'] w']; [|done].
  by destruct requested.
Qed.

Lemma recording_queryAzureForCidrs (w : World) (log : list Request) token cidrs sid :
  queryAzureForCidrs (H:=recording H) (w, log) token cidrs [sid]
  = let '(outcome, w') := queryAzureForCidrs (H:=H) w token cidrs [sid] in
    (outcome,
     (w', log ++ [ResourceRequest token (buildResourceGraphQuery cidrs) [sid]])).
Proof.
  unfold queryAzureForCidrs. cbn [fetchResources recording fst snd].
  by destruct (fetchResources w token (buildResourceGraphQuery cidrs) [sid])
    as [[err|errorText|rows] w'].
Qed.

Lemma recording_queryEach token cidrs subs : ∀ (w : World) (log : list Request) results posted,
  queryEach (H:=recording H) token cidrs subs (w, log) results posted
  = let '(w', results', posted') := queryEach (H:=H) token cidrs subs w results posted in
    ((w', log ++ resourceRequests token cidrs subs), results', posted').
Proof.
  induction subs as [|sub subs IH]; intros w log results posted.
  - cbn [queryEach resourceRequests fmap list_fmap]. by rewrite app_nil_r.
  - cbn [queryEach]. rewrite recording_queryAzureForCidrs.
    destruct (queryAzureForCidrs (H:=H) w token cidrs [id sub]) as [[hits|err] w'];
      rewrite IH; unfold resourceRequests; rewrite fmap_cons;
      destruct (queryEach (H:=H) _ _ _ _ _ _) as [[? ?] ?];
      by rewrite <- (assoc_L (++)).
Qed.

End requests.

(** X13. The requests of a lookup.  Under a host that records them, a lookup
    behaves as under the host itself and adds to the record: nothing when
    the token is blank; otherwise one request for the catalog, unless the
    cache holds it for the token, followed by one request for the resources
    of each subscription announced by [initSubscriptions], in that order,
    each scoped to that single id and carrying the query built from the
    filters of the message. *)
Theorem lookup_requests `(H : Host World) (st : State) (w : World) (log : list Request)
    (cidr : string) (subscriptions : option (list string)) :
  let token := trim (default "" (configToken w)) in
  let plain := onDidReceiveMessage (H:=H) st w (LookupMessage cidr subscriptions) in
  onDidReceiveMessage (H:=recording H) st (w, log) (LookupMessage cidr subscriptions)
  = (plain.1.1,
     (plain.1.2,
      log ++
      (if truthy token
       then catalogRequests (cache st) token ++
            resourceRequests token (parseCidrs cidr) (initSubscriptionsOf plain.2)
       else [])),
     plain.2).
Proof.
  intros token plain. subst plain. cbn [onDidReceiveMessage].
  unfold lookupCidr, lookupTry.
  change (@configToken _ (recording H) (w, log)) with (@configToken _ H w).
  fold token. destruct (truthy token) eqn:Htok; cbn [negb].
  2:{ cbn [fst snd]. by rewrite app_nil_r. }
  rewrite recording_resolveSubscriptions.
  destruct (resolveSubscriptions (H:=H) (cache st) w token (parseRequested subscriptions))
    as [[[subs|err] c'] w'].
  - destruct subs as [|sub subs].
    + cbn [fst snd app initSubscriptionsOf resourceRequests fmap list_fmap].
      by rewrite app_nil_r.
    + rewrite recording_queryEach.
      destruct (queryEach (H:=H) token (parseCidrs cidr) (sub :: subs) w' [] [])
        as [[w2 results] posted].
      cbn [fst snd app initSubscriptionsOf]. by rewrite (assoc_L (++)).
  - cbn [fst snd app initSubscriptionsOf resourceRequests fmap list_fmap].
    by rewrite app_nil_r.
Qed.

(** X14. The requests of a request for the subscriptions: none when the token
    is blank or the cache holds the catalog for it, one request for the
    catalog otherwise; never a request for resources. *)
Theorem subscriptions_requests `(H : Host World) (st : State) (w : World)
    (log : list Request) :
  let token := trim (default "" (configToken w)) in
  let plain := onDidReceiveMessage (H:=H) st w RequestSubscriptionsMessage in
  onDidReceiveMessage (H:=recording H) st (w, log) RequestSubscriptionsMessage
  = (plain.1.1,
     (plain.1.2, log ++ (if truthy token then catalogRequests (cache st) token else [])),
     plain.2).
Proof.
  intros token plain. subst plain. cbn [onDidReceiveMessage].
  unfold sendAvailableSubscriptions.
  change (@configToken _ (recording H) (w, log)) with (@configToken _ H w).
  fold token. destruct (truthy token) eqn:Htok; cbn [negb].
  2:{ cbn [fst snd]. by rewrite app_nil_r. }
  rewrite recording_listSubscriptions.
  by destruct (listSubscriptions (H:=H) (cache st) w token) as [[[subs|err] c'] w'].
Qed.

(** X15. What the webview is offered is what an unrestricted lookup queries:
    after a request for the subscriptions that posted a catalog, a lookup
    without a subset (under the same token) announces that same catalog,
    taken from the cache. *)
Theorem offered_then_queried `{Host World} (st : State) (w w2 : World) (cidr : string)
    (all : list SubscriptionInfo) :
  let token := trim (default "" (configToken w)) in
  truthy token = true →
  (onDidReceiveMessage st w RequestSubscriptionsMessage).2
    = [PostMessage (SubscriptionOptions all)] →
  trim (default "" (configToken w2)) = token →
  let st1 := (onDidReceiveMessage st w RequestSubscriptionsMessage).1.1 in
  initSubscriptionsOf (onDidReceiveMessage st1 w2 (LookupMessage cidr None)).2 = all
  ∧ catalogRequests (cache st1) token = [].
Proof.
  intros token Htok Hposted Htok2 st1. subst st1.
  cbn [onDidReceiveMessage] in *. unfold sendAvailableSubscriptions in *.
  fold token in Hposted |- *. rewrite Htok in Hposted |- *. cbn [negb] in Hposted |- *.
  destruct (listSubscriptions (cache st) w token) as [[[subs|err] c'] w'] eqn:Hlist;
    [|done].
  cbn [fst snd] in Hposted |- *. injection Hposted as ->.
  destruct (listSubscriptions_Returned _ _ _ _ _ _ Hlist)
    as [(Hhit & -> & _)|(_ & _ & Hne & ->)].
  - assert (cacheHit (cache st) token = Some all) as Hhit' by done.
    cbn [cache].
    split; [|by unfold catalogRequests; rewrite Hhit'].
    unfold lookupCidr, lookupTry. rewrite Htok2, Htok. cbn [negb parseRequested].
    unfold resolveSubscriptions, listSubscriptions. cbn [cache]. rewrite Hhit'.
    apply cacheHit_Some in Hhit' as (_ & _ & Hne). destruct all as [|sub subs]; [done|].
    by destruct (queryEach _ _ _ _ _ _) as [[? ?] ?].
  - pose proof (cacheHit_fresh token all Hne) as Hhit'.
    cbn [cache].
    split; [|by unfold catalogRequests; rewrite Hhit'].
    unfold lookupCidr, lookupTry. rewrite Htok2, Htok. cbn [negb parseRequested].
    unfold resolveSubscriptions, listSubscriptions. cbn [cache]. rewrite Hhit'.
    destruct all as [|sub subs]; [done|].
    by destruct (queryEach _ _ _ _ _ _) as [[? ?] ?].
Qed.

Lemma offered_then_queried_witness :
  let st1 :=
    (onDidReceiveMessage (H:=Sample.host) initialState (Some "tok")
       RequestSubscriptionsMessage).1.1 in
  initSubscriptionsOf
    (onDidReceiveMessage (H:=Sample.host) st1 (Some " tok ") (LookupMessage "10.0.*" None)).2
  = [Sample.subA; Sample.subB]
  ∧ catalogRequests (cache st1) "tok" = [].
Proof.
  apply (offered_then_queried (H:=Sample.host) initialState (Some "tok") (Some " tok ")
           "10.0.*" [Sample.subA; Sample.subB]); reflexivity.
Defined.

(** ** Result projector and exporter *)

Section exporter.




Lemma collectColumns_keys rows rows' :
  (∀ k, (∃ row : GraphResult, row ∈ rows ∧ is_Some (row !! k))
        ↔ (∃ row : GraphResult, row ∈ rows' ∧ is_Some (row !! k))) →
  gatherKeys rows [] ≡ₚ gatherKeys rows' [].
Proof.
  intros Hkeys. apply NoDup_Permutation; [apply gatherKeys_NoDup, NoDup_nil_2..|].
  intros k. rewrite !gatherKeys_elem, Hkeys. done.
Qed.

End exporter.

(** X16. The columns depend on the keys that occur in the rows, not on the
    order of the rows nor on their repetition: two lists of rows with the
    same keys give the same columns. *)
Theorem collectColumns_order_free (rows rows' : list GraphResult) :
  (∀ k, (∃ row : GraphResult, row ∈ rows ∧ is_Some (row !! k))
        ↔ (∃ row : GraphResult, row ∈ rows' ∧ is_Some (row !! k))) →
  collectColumns rows = collectColumns rows'.
Proof.
  intros Hkeys. unfold collectColumns. fold (gatherKeys rows []) (gatherKeys rows' []).
  apply sort_unique.
  - unfold Js.sort. rewrite merge_sort_Permutation. by apply collectColumns_keys.
  - apply Sorted_merge_sort, _.
Qed.

Lemma collectColumns_order_free_witness :
  collectColumns Sample.rowsQ = collectColumns (reverse Sample.rowsQ ++ Sample.rowsQ).
Proof.
  apply (collectColumns_order_free Sample.rowsQ (reverse Sample.rowsQ ++ Sample.rowsQ)).
  intros k. split; intros (row & Hrow & Hk); exists row; (split; [|exact Hk]).
  - apply elem_of_app. by right.
  - apply elem_of_app in Hrow as [Hrow|Hrow]; [|exact Hrow].
    by apply elem_of_reverse in Hrow.
Defined.



(** ** File names, [.gitignore] and nonce *)

Section file_names.

Lemma str_app_inj_length (a b x y : string) :
  String.length a = String.length b → a +:+ x = b +:+ y → a = b ∧ x = y.
Proof.
  revert b. induction a as [|c a IH]; intros [|d b] Hlen; try done.
  rewrite !str_app_cons. intros [= -> Heq]. injection Hlen as Hlen.
  destruct (IH b Hlen Heq) as [-> ->]. done.
Qed.

Lemma twoDigits_length n : n < 100 → String.length (twoDigits n) = 2.
Proof.
  intros Hn. do 100 (destruct n as [|n]; [reflexivity|]). lia.
Qed.

(** The number that two decimal digits stand for. *)
Lemma twoDigits_value n :
  n < 100 →
  ∃ c1 c2, twoDigits n = String c1 (String c2 "")
           ∧ (nat_of_ascii c1 - 48) * 10 + (nat_of_ascii c2 - 48) = n.
Proof.
  intros Hn. do 100 (destruct n as [|n]; [by eexists _, _|]). exfalso. lia.
Qed.

Lemma twoDigits_inj n m : n < 100 → m < 100 → twoDigits n = twoDigits m → n = m.
Proof.
  intros (c1 & c2 & -> & <-)%twoDigits_value (d1 & d2 & -> & <-)%twoDigits_value.
  by intros [= -> ->].
Qed.

Lemma prefix_app needle rest : String.prefix needle (needle +:+ rest) = true.
Proof.
  induction needle as [|c needle IH]; [by destruct rest|].
  rewrite str_app_cons, prefix_cons. by destruct (ascii_dec c c).
Qed.

Lemma includesStr_app needle before after :
  includesStr needle (before +:+ needle +:+ after) = true.
Proof.
  induction before as [|c before IH].
  - rewrite str_app_nil_l.
    destruct (needle +:+ after) eqn:Heq; cbn [includesStr]; by rewrite <- Heq, prefix_app.
  - rewrite str_app_cons. cbn [includesStr]. rewrite IH. by destruct (String.prefix _ _).
Qed.

Lemma endsWithChar_snoc c s : endsWithChar c (s +:+ String c "") = true.
Proof.
  induction s as [|d s IH]; [cbn; apply Ascii.eqb_refl|].
  rewrite str_app_cons. cbn [endsWithChar]. rewrite IH.
  destruct (s +:+ String c "") eqn:Heq; [by destruct s|done].
Qed.

Lemma allChars_app p s t : allChars p (s +:+ t) = allChars p s && allChars p t.
Proof.
  induction s as [|c s IH]; [done|]. rewrite str_app_cons. cbn [allChars].
  by rewrite IH, andb_assoc.
Qed.

Lemma charAt_possible i :
  i < 62 →
  String.length (charAt i possible) = 1
  ∧ allChars (λ c, includes c possible) (charAt i possible) = true.
Proof.
  intros Hi. do 62 (destruct i as [|i]; [by split|]). exfalso. lia.
Qed.

Lemma getNonce_loop_spec random n : ∀ i text,
  (∀ j, random j < 62) →
  String.length (getNonce_loop random i n text) = String.length text + n
  ∧ (allChars (λ c, includes c possible) text = true →
     allChars (λ c, includes c possible) (getNonce_loop random i n text) = true).
Proof.
  induction n as [|n IH]; intros i text Hrandom; cbn [getNonce_loop].
  - split; [lia|done].
  - destruct (IH (S i) (text +:+ charAt (random i) possible) Hrandom) as [Hlen Hall].
    destruct (charAt_possible (random i) (Hrandom i)) as [Hlen1 Hall1].
    split.
    + rewrite Hlen, str_length_app, Hlen1. lia.
    + intros Htext. apply Hall. by rewrite allChars_app, Htext, Hall1.
Qed.

Lemma timestamp_inj (now1 now2 : DateParts) :
  validDate now1 → validDate now2 → timestamp now1 = timestamp now2 → now1 = now2.
Proof.
  destruct now1 as [y1 mo1 d1 h1 mi1], now2 as [y2 mo2 d2 h2 mi2].
  unfold validDate, timestamp. cbn [fullYear month date hours minutes].
  intros (Hmo1 & Hd1 & Hh1 & Hmi1) (Hmo2 & Hd2 & Hh2 & Hmi2) Heq.
  pose proof (f_equal String.length Heq) as Hlen.
  rewrite !str_length_app in Hlen.
  rewrite !twoDigits_length in Hlen by lia. cbn [String.length] in Hlen.
  apply str_app_inj_length in Heq as [Hy Heq]; [|lia].
  apply (inj pretty) in Hy as ->.
  apply (inj (String.app "-")) in Heq.
  apply str_app_inj_length in Heq as [Hmo Heq]; [|by rewrite !twoDigits_length by lia].
  apply twoDigits_inj in Hmo; [|lia..].
  apply (inj (String.app "-")) in Heq.
  apply str_app_inj_length in Heq as [Hd Heq]; [|by rewrite !twoDigits_length by lia].
  apply twoDigits_inj in Hd as ->; [|lia..].
  apply (inj (String.app "_")) in Heq.
  apply str_app_inj_length in Heq as [Hh Heq]; [|by rewrite !twoDigits_length by lia].
  apply twoDigits_inj in Hh as ->; [|lia..].
  apply (inj (String.app "-")) in Heq.
  apply twoDigits_inj in Heq as ->; [|lia..].
  f_equal. lia.
Qed.

End file_names.

(** X18. For dates within their ranges, two exports under the same base name
    get the same file name only when they are made in the same minute of
    the same day: the name determines year, month, day, hour and minute. *)
Theorem csvFileName_minute (baseFileName : string) (now1 now2 : DateParts) :
  validDate now1 → validDate now2 →
  csvFileName baseFileName now1 = csvFileName baseFileName now2 →
  now1 = now2.
Proof.
  intros Hv1 Hv2 Heq. unfold csvFileName in Heq.
  apply (inj (String.app baseFileName)), (inj (String.app "-")), str_app_inv_tail in Heq.
  by apply timestamp_inj.
Qed.

Lemma csvFileName_minute_witness :
  Sample.noon = {| fullYear := 2025; month := 0; date := 9; hours := 12; minutes := 5 |}.
Proof.
  apply (csvFileName_minute "azure-cidr-results" Sample.noon
           {| fullYear := 2025; month := 0; date := 9; hours := 12; minutes := 5 |}).
  - unfold validDate. cbn. lia.
  - unfold validDate. cbn. lia.
  - reflexivity.
Defined.

(** X19. The update of [.gitignore] writes nothing exactly when the content
    already holds the entry; otherwise it keeps the content and appends to
    it, the result holds the entry and ends with a line feed, and a second
    update of the result writes nothing. *)
Theorem gitignoreUpdate_once (content : string) :
  (gitignoreUpdate content = None ↔ includesStr gitignoreEntry content = true)
  ∧ ∀ content',
      gitignoreUpdate content = Some content' →
      (∃ suffix, content' = content +:+ suffix)
      ∧ includesStr gitignoreEntry content' = true
      ∧ endsWithChar "010" content' = true
      ∧ gitignoreUpdate content' = None.
Proof.
  unfold gitignoreUpdate. split.
  - destruct (includesStr gitignoreEntry content); [done|]. split; discriminate.
  - intros content'. destruct (includesStr gitignoreEntry content) eqn:Hinc; [done|].
    intros [= <-].
    set (content1 := if endsWithChar "010" content then content else content +:+ LF).
    assert (includesStr gitignoreEntry (content1 +:+ gitignoreEntry +:+ LF) = true) as Hnow
      by apply includesStr_app.
    split_and!.
    + subst content1. destruct (endsWithChar "010" content).
      * by eexists.
      * eexists. by rewrite str_app_assoc.
    + done.
    + rewrite <- str_app_assoc. apply endsWithChar_snoc.
    + by rewrite Hnow.
Qed.

Lemma gitignoreUpdate_once_witness :
  (∃ suffix, "node_modules" +:+ LF +:+ "/elelabdev" +:+ LF = "node_modules" +:+ suffix)
  ∧ includesStr gitignoreEntry ("node_modules" +:+ LF +:+ "/elelabdev" +:+ LF) = true
  ∧ endsWithChar "010" ("node_modules" +:+ LF +:+ "/elelabdev" +:+ LF) = true
  ∧ gitignoreUpdate ("node_modules" +:+ LF +:+ "/elelabdev" +:+ LF) = None.
Proof.
  destruct (gitignoreUpdate_once "node_modules") as [_ Hupdate].
  apply (Hupdate ("node_modules" +:+ LF +:+ "/elelabdev" +:+ LF)). reflexivity.
Defined.

(** X20. When every draw is an index into the alphabet (as the floor of a
    number below one times the length of the alphabet is), the nonce has 32
    code units, each a letter or a digit of the alphabet. *)
Theorem getNonce_alphanumeric (random : nat → nat) :
  (∀ i, random i < 62) →
  String.length (getNonce random) = 32
  ∧ allChars (λ c, includes c possible) (getNonce random) = true.
Proof.
  intros Hrandom. unfold getNonce.
  destruct (getNonce_loop_spec random 32 0 "" Hrandom) as [Hlen Hall].
  split; [exact Hlen|by apply Hall].
Qed.

Lemma getNonce_alphanumeric_witness :
  String.length (getNonce (λ i, i * 7 mod 62)) = 32
  ∧ allChars (λ c, includes c possible) (getNonce (λ i, i * 7 mod 62)) = true.
Proof.
  apply (getNonce_alphanumeric (λ i, i * 7 mod 62)).
  intros i. apply Nat.mod_upper_bound. lia.
Defined.

(** ** The retained rows *)

(** X21. The retained rows change only in a lookup that announces its
    subscriptions: the handler of any message whose effects carry no
    [initSubscriptions] list (a request for the subscriptions, an export, a
    lookup that fails before its loop) leaves them as they were. *)
Theorem results_change_only_after_init `{Host World} (st : State) (w : World)
    (message : IncomingMessage) :
  initSubscriptionsOf (onDidReceiveMessage st w message).2 = [] →
  lastResults (onDidReceiveMessage st w message).1.1 = lastResults st.
Proof.
  destruct message as [cidr subscriptions| |]; cbn [onDidReceiveMessage].
  - destruct (lookupCidr_cases st w cidr subscriptions)
      as [[_ ->]|[[_ (err & c' & w' & _ & ->)]|[_ (subs & c' & w' & _ & Hne & ->)]]];
      [done..|].
    cbn [snd initSubscriptionsOf]. by intros ->.
  - done.
  - intros _. unfold sendAvailableSubscriptions. destruct (negb _); [done|].
    by destruct (listSubscriptions _ _ _) as [[[subs|err] c'] w'].
Qed.

Lemma results_change_only_after_init_witness :
  lastResults
    (onDidReceiveMessage (H:=Sample.hostDown)
       {| lastResults := Sample.rowsA; cache := cache initialState |} (Some "tok")
       (LookupMessage "10.0.*" None)).1.1
  = Sample.rowsA.
Proof.
  apply (results_change_only_after_init (H:=Sample.hostDown)
           {| lastResults := Sample.rowsA; cache := cache initialState |} (Some "tok")
           (LookupMessage "10.0.*" None)).
  reflexivity.
Defined.
